(** * voronoi-hex: complex derivation, boundary operators and the win rule

    A shallow embedding of [topology.py], of the live path of
    [simplicialHomology.py] ([ksimplices], [boundary], [integerVertices],
    [simplicialHomology], [homologyRankOnly]) and of
    [Game.string_from_homology] from [game.py].

    Conventions of the embedding.
    - A vertex is a Python [int]: [Z].
    - A pyrsistent [pset] is unordered, but the code iterates over it
      ([first], [map], [powerset], [list(...)]).  A [pset] that the code
      reads is therefore a [list] giving its elements in iteration order;
      its set value is [list_to_set].  A [pset] that the code builds is a
      [gset]: its iteration order is not fixed by the code.
    - A [Complex] (a [pset] of [pset]s of vertices) that is read is a
      [list (list Z)]; its set value is [pset_value].
    - Python exceptions are the constructor [Raise] of [result]. *)

From stdpp Require Import gmap list sets strings pretty sorting.
From Stdlib Require Import ZArith Lia.

(** ** Python values shared by the modules *)

Inductive exception :=
  | StopIteration   (* raised by [next] on an exhausted iterator *)
  | InvalidComplex. (* the condition named by the specification; no code path raises it *)

Inductive result (A : Type) :=
  | Ok (a : A)
  | Raise (e : exception).
Arguments Ok {A} a.
Arguments Raise {A} e.

#[global] Instance result_bind : MBind result := λ A B f m,
  match m with
  | Ok a => f a
  | Raise e => Raise e
  end.

(** Set value of a [pset] of vertices given in iteration order. *)
Definition pset (t : list Z) : gset Z := list_to_set t.

(** Set value of a [pset] of [pset]s given in iteration order. *)
Definition pset_value (xs : list (list Z)) : gset (gset Z) :=
  list_to_set (map pset xs).

(** ** itertools / more_itertools / toolz *)

Module Itertools.

(** [itertools.combinations(l, r)]: the [r]-element subsequences of [l],
    in lexicographic order of their positions. *)
Fixpoint combinations {A} (l : list A) (r : nat) {struct l} : list (list A) :=
  match r, l with
  | O, _ => [[]]
  | S _, [] => []
  | S r', x :: l' => map (cons x) (combinations l' r') ++ combinations l' r
  end.

(** [more_itertools.powerset(l)]:
    [chain.from_iterable(combinations(s, r) for r in range(len(s) + 1))]. *)
Definition powerset {A} (l : list A) : list (list A) :=
  mjoin (map (combinations l) (seq 0 (S (length l)))).

(** A lazy iterator: the item yielded at each position, [None] once it is
    exhausted. *)
Definition iterator (A : Type) := nat → option A.

(** [itertools.cycle(c)]: repeats [c] for ever; empty when [c] is. *)
Definition cycle {A} (c : list A) : iterator A :=
  λ i, c !! (i mod length c)%nat.

(** [toolz.sliding_window(2, it)]. *)
Definition sliding_window2 {A} (it : iterator A) : iterator (A * A) :=
  λ i, match it i, it (S i) with
       | Some a, Some b => Some (a, b)
       | _, _ => None
       end.

(** [toolz.take(n, it)], read from position [i] on. *)
Fixpoint take_from {A} (it : iterator A) (i n : nat) : list A :=
  match n with
  | O => []
  | S n' => match it i with
            | Some x => x :: take_from it (S i) n'
            | None => []
            end
  end.

Definition take {A} (n : nat) (it : iterator A) : list A := take_from it 0 n.

(** [toolz.first(seq)] is [next(iter(seq))]. *)
Definition first {A} (l : list A) : result A :=
  match l with
  | [] => Raise StopIteration
  | x :: _ => Ok x
  end.

(** A finite sequence read as an iterator. *)
Definition iter {A} (l : list A) : iterator A := λ i, l !! i.

(** The items of an iterator that yields at most [bound] items, read to
    its end. *)
Definition consume {A} (bound : nat) (it : iterator A) : list A :=
  take_from it 0 bound.

(** [enumerate(l)]. *)
Definition enumerate {A} (l : list A) : list (nat * A) :=
  zip (seq 0 (length l)) l.

(** [dict(zip(keys, values))]: a later pair overrides an earlier one with
    the same key. *)
Definition dict `{Countable K} {V} (kvs : list (K * V)) : gmap K V :=
  foldl (λ d kv, <[kv.1 := kv.2]> d) ∅ kvs.

End Itertools.

(** ** topology.py *)

Module Topology.
Import Itertools.

(** [pset] of a window [(a, b)]. *)
Definition pset_pair (w : Z * Z) : gset Z := pset [w.1; w.2].

(** [edges_from_cycle]:
    [pipe(c, cycle, sliding_window(2), take(len(c)), map(pset), pset)]. *)
Definition edges_from_cycle (c : list Z) : gset (gset Z) :=
  list_to_set (map pset_pair (take (length c) (sliding_window2 (cycle c)))).

(** [faces_from_edges]: the apex [v0 = pipe(es, first, first)] is the first
    vertex, in iteration order, of the first edge, in iteration order. *)
Definition apex (es : list (list Z)) : result Z :=
  e0 ← first es; first e0.

(** [pipe(es, filter(lambda t: v0 not in t), map(lambda t: t | s(v0)), pset)]. *)
Definition fan (v0 : Z) (es : list (list Z)) : gset (gset Z) :=
  list_to_set (map (λ t, pset t ∪ {[v0]}) (filter (λ t, v0 ∉ pset t) es)).

Definition faces_from_edges (es : list (list Z)) : result (gset (gset Z)) :=
  v0 ← apex es;
  Ok (fan v0 es).

(** [closure]: [pipe(xs, map(powerset), concat, map(pset), pset)]. *)
Definition closure (xs : list (list Z)) : gset (gset Z) :=
  list_to_set (map pset (mjoin (map powerset xs))).

(** [edges_from_cycles]: [pipe(cs, map(edges_from_cycle), concat, pset)]. *)
Definition edges_from_cycles (cs : list (list Z)) : gset (gset Z) :=
  ⋃ (map edges_from_cycle cs).

(** [verts_from_edges]: [pipe(xs, concat, map(s), pset)]. *)
Definition verts_from_edges (xs : list (list Z)) : gset (gset Z) :=
  list_to_set (map (λ v, {[v]}) (mjoin xs)).

(** [outer_edges_from_cycle]: [pipe(c, sliding_window(2), map(pset), pset)];
    the windows of a sequence of [n] items are fewer than [n]. *)
Definition outer_edges_from_cycle (c : list Z) : gset (gset Z) :=
  list_to_set
    (map pset_pair (consume (length c) (sliding_window2 (iter c)))).

(** [face_from_cycle]:
    [pipe(c[1:], outer_edges_from_cycle, map(lambda t: t | s(c[0])), pset)].
    The lambda, and so [c[0]], is evaluated once per outer edge: never for
    an empty [c]. *)
Definition face_from_cycle (c : list Z) : gset (gset Z) :=
  set_map (λ t : gset Z, t ∪ {[c !!! 0%nat]})
          (outer_edges_from_cycle (drop 1 c)).

(** The [i]-th pair of [sliding_window(2, cycle(c))], used to state what
    [edges_from_cycle] returns. *)
Definition window (c : list Z) (i : nat) : Z * Z :=
  (c !!! (i mod length c)%nat, c !!! (S i mod length c)%nat).

(** The four edges of a square, listed in two iteration orders. *)
Definition square1 : list (list Z) := [[0; 1]; [1; 2]; [2; 3]; [3; 0]]%Z.
Definition square2 : list (list Z) := [[1; 2]; [2; 3]; [3; 0]; [0; 1]]%Z.

(** Two disjoint edges: not a cycle. *)
Definition two_edges : list (list Z) := [[0; 1]; [2; 3]]%Z.

End Topology.

(** ** numpy arrays of dimension 2 *)

Module Numpy.

(** A 2-D array: its [shape] and its rows.  [np.zeros((0, n))] has shape
    [(0, n)] and no row. *)
Record ndarray := mk_ndarray { shape : nat * nat; data : list (list Z) }.

Definition zeros (m n : nat) : ndarray :=
  {| shape := (m, n); data := replicate m (replicate n 0%Z) |}.

(** [A.size]. *)
Definition size (A : ndarray) : nat := ((shape A).1 * (shape A).2)%nat.

(** [A[r, c]]. *)
Definition item (A : ndarray) (r c : nat) : Z :=
  default 0%Z (data A !! r ≫= (.!! c)).

(** [A[r, c] = v], for [r] and [c] within the shape. *)
Definition setitem (A : ndarray) (r c : nat) (v : Z) : ndarray :=
  {| shape := shape A; data := alter (<[c := v]>) r (data A) |}.

Definition column (B : ndarray) (c : nat) : list Z :=
  map (λ row, default 0%Z (row !! c)) (data B).

Definition sum_list (l : list Z) : Z := foldr Z.add 0%Z l.

Definition vdot (u v : list Z) : Z :=
  sum_list (zip_with Z.mul u v).

(** [np.dot(A, B)] for 2-D arrays: defined when the number of columns of
    [A] is the number of rows of [B] ([None] stands for numpy's
    [ValueError: shapes not aligned]). *)
Definition dot (A B : ndarray) : option ndarray :=
  if decide ((shape A).2 = (shape B).1) then
    Some {| shape := ((shape A).1, (shape B).2);
            data := map (λ row, map (λ c, vdot row (column B c))
                                    (seq 0 (shape B).2))
                        (data A) |}
  else None.

End Numpy.

(** ** Instances used to evaluate the engine on examples *)

Module Eval.
Import Numpy.

(** An iteration order for Python's [set]: first occurrences, in order. *)
Definition py_set (l : list (list Z)) : list (list Z) := remove_dups l.
Definition py_set_vertices (l : list Z) : list Z := remove_dups l.

(** Exact rank of an integer matrix by fraction-free elimination, one
    column per unit of [fuel]. *)
Fixpoint find_pivot (rows : list (list Z)) : option (list Z * list (list Z)) :=
  match rows with
  | [] => None
  | r :: rs =>
      if bool_decide (hd 0%Z r ≠ 0%Z) then Some (r, rs)
      else (λ pr, (pr.1, r :: pr.2)) <$> find_pivot rs
  end.

Definition eliminate (p r : list Z) : list Z :=
  zip_with (λ a b, hd 0 p * b - hd 0 r * a)%Z (tail p) (tail r).

Fixpoint rank_rows (fuel : nat) (rows : list (list Z)) : nat :=
  match fuel with
  | O => O
  | S fuel' =>
      match find_pivot rows with
      | None => rank_rows fuel' (map tail rows)
      | Some (p, rest) => S (rank_rows fuel' (map (eliminate p) rest))
      end
  end.

Definition exact_rank (M : ndarray) : Z :=
  Z.of_nat (rank_rows (shape M).2 (data M)).

End Eval.

(** ** simplicialHomology.py (live path), [betti] of topology.py, game.py *)

Section Engine.
Import Itertools Numpy Topology.

(** Iteration order of Python's built-in [set] built from a sequence of
    simplices (tuples) and from a sequence of vertices: some order of the
    distinct elements, the same for the same construction. *)
Variable set_iter : list (list Z) → list (list Z).
Variable set_iter_vertices : list Z → list Z.

Hypothesis set_iter_NoDup : ∀ l, NoDup (set_iter l).
Hypothesis set_iter_elem : ∀ l x, x ∈ set_iter l ↔ x ∈ l.
Hypothesis set_iter_vertices_NoDup : ∀ l, NoDup (set_iter_vertices l).
Hypothesis set_iter_vertices_elem : ∀ l x, x ∈ set_iter_vertices l ↔ x ∈ l.

(** [numpy.linalg.matrix_rank(M, tol)] at the fixed tolerance [1e-5]: a
    floating-point singular value decomposition of the library. *)
Variable matrix_rank : ndarray → Z.

(** [ksimplices(toplexes, k, relative)], for [k >= -1] (below,
    [it.combinations] raises [ValueError]).  [relative] is [None] or a set
    of tuples, read by membership only. *)
Definition ksimplices (toplexes : list (list Z)) (k : Z)
    (relative : option (list (list Z))) : list (list Z) :=
  let simplices :=
    mjoin (map (λ toplex, combinations toplex (Z.to_nat (k + 1))) toplexes) in
  let simplices :=
    match relative with
    | Some rel => filter (λ x, x ∉ rel) (set_iter simplices)
    | None => simplices
    end in
  set_iter simplices.

(** [coefLst = [1] * n; coefLst[1::2] = [-1] * len(coefLst[1::2])]: the
    entry at position [i] is [sign i], that is [(-1)^i]. *)
Definition sign (i : nat) : Z := if Nat.even i then 1%Z else (-1)%Z.

Definition coefLst (n : nat) : list Z := map sign (seq 0 n).

(** [indexLst = list(it.combinations(list(range(k + 1)), k)); indexLst.reverse()]. *)
Definition indexLst (k : Z) : list (list nat) :=
  reverse (combinations (seq 0 (Z.to_nat (k + 1))) (Z.to_nat k)).

(** One turn of the loop over [enumerate(kchain)].  The dictionary is keyed
    by [str] of a list of ints, which is injective: the key is the list.
    [km1Dict.get(key, -1)] with the later test [v != -1] is an [option].
    [splx[i]] stays in range, a simplex of [kchain] having [k + 1]
    vertices; the entries written are 1 and -1, within [int8]. *)
Definition boundary_column (km1Dict : gmap (list Z) nat) (k : Z)
    (bndry : ndarray) (col : nat * list Z) : ndarray :=
  let '(colIdx, splx) := col in
  let rowKey := map (λ li, map (λ i, splx !!! i) li) (indexLst k) in
  let rowInd := map (λ rowKeyStr, km1Dict !! rowKeyStr) rowKey in
  let rowIdxVals :=
    omap (λ '(ci, v), (λ r, (r, coefLst (length (indexLst k)) !!! ci)) <$> v)
         (enumerate rowInd) in
  foldl (λ b rowIdxVal, setitem b rowIdxVal.1 colIdx rowIdxVal.2)
        bndry rowIdxVals.

(** [boundary(toplexes, k, relative, km1chain)]. *)
Definition boundary (toplexes : list (list Z)) (k : Z)
    (relative : option (list (list Z))) (km1chain : option (list (list Z)))
    : ndarray * option (list (list Z)) :=
  let kchain := ksimplices toplexes k relative in
  let km1chain :=
    match km1chain with
    | None => ksimplices toplexes (k - 1) relative
    | Some c => c
    end in
  if bool_decide (k ≤ 0)%Z || bool_decide (kchain = [])
     || bool_decide (km1chain = [])
  then (zeros 0 (length kchain), None)
  else
    let bndry := zeros (length km1chain) (length kchain) in
    let km1Dict := dict (zip km1chain (seq 0 (length km1chain))) in
    (foldl (boundary_column km1Dict k) bndry (enumerate kchain), Some kchain).

(** [integerVertices(cplx1, cplx2)]. *)
Definition integerVertices (cplx1 : list (list Z))
    (cplx2 : option (list (list Z))) : list (list Z) * list (list Z) :=
  let cplx2 := default [] cplx2 in
  let cplx := cplx1 ++ cplx2 in
  let vertslist := set_iter_vertices (mjoin cplx) in
  let vertsdict : gmap Z Z :=
    dict (zip vertslist (map Z.of_nat (seq 0 (length vertslist)))) in
  (map (map (λ v, vertsdict !!! v)) cplx1,
   map (map (λ v, vertsdict !!! v)) cplx2).

(** [sorted(value)] on a list of ints. *)
Definition sorted (value : list Z) : list Z := merge_sort Z.le value.

(** [homologyRankOnly(b1, b2)]. *)
Definition homologyRankOnly (b1 b2 : ndarray) : Z :=
  let rankB1 := if bool_decide (0 < size b1)%nat then matrix_rank b1 else 0%Z in
  let rankB2 := if bool_decide (0 < size b2)%nat then matrix_rank b2 else 0%Z in
  (Z.of_nat (shape b1).2 - rankB1 - rankB2)%Z.

(** The numerical rank as [homologyRankOnly] takes it: 0 for an array of
    size 0, [matrix_rank] otherwise. *)
Definition numerical_rank (M : ndarray) : Z :=
  if bool_decide (size M = 0%nat) then 0%Z else matrix_rank M.

(** [simplicialHomology(k, X, Y, rankOnly=True)]. *)
Definition simplicialHomology (k : Z) (X : list (list Z))
    (Y : option (list (list Z))) : Z :=
  let '(X, Y) := integerVertices X Y in
  let X := map sorted X in
  let Y := map sorted Y in
  let '(dk, km1chain) := boundary X k (Some Y) None in
  let '(dkp1, _) := boundary X (k + 1) (Some Y) km1chain in
  homologyRankOnly dk dkp1.

(** [betti(index, xs, subspace)] of topology.py; [lists_from_complex]
    lists a complex and each of its simplices in iteration order. *)
Definition lists_from_complex (immutable : list (list Z)) : list (list Z) :=
  immutable.

Definition betti (index : Z) (xs : list (list Z))
    (subspace : option (list (list Z))) : Z :=
  match subspace with
  | Some sub =>
      simplicialHomology index (lists_from_complex xs)
        (Some (lists_from_complex sub))
  | None => simplicialHomology index (lists_from_complex xs) None
  end.

(** The fields of [Board] and [Game] that the homology summary reads. *)
Record Board := mk_Board {
  blue_base : list (list Z);
  red_base : list (list Z) }.

Record Game := mk_Game {
  board : Board;
  blue : list (list Z);
  red : list (list Z) }.

Definition tab : string := String (Ascii.ascii_of_nat 9) EmptyString.
Definition nl : string := String (Ascii.ascii_of_nat 10) EmptyString.

(** The local [winner] of [Game.string_from_homology]. *)
Definition winner_text (h1b h1bb h1r h1rr : Z) : string :=
  if bool_decide (h1bb > h1b)%Z then "winner: blue!"
  else if bool_decide (h1rr > h1r)%Z then "winner: red!"
  else "".

(** The table above the winner line. *)
Definition table_text (h0b h1b h0bb h1bb h0r h1r h0rr h1rr : Z) : string :=
  "betti    :" +:+ tab +:+ "dim=0" +:+ tab +:+ "dim=1" +:+ nl +:+
  "------------------------------" +:+ nl +:+
  "b(B)     :" +:+ tab +:+ pretty h0b +:+ tab +:+ pretty h1b +:+ nl +:+
  "b(B,B_0) :" +:+ tab +:+ pretty h0bb +:+ tab +:+ pretty h1bb +:+ nl +:+
  "b(R)     :" +:+ tab +:+ pretty h0r +:+ tab +:+ pretty h1r +:+ nl +:+
  "b(R,R_0) :" +:+ tab +:+ pretty h0rr +:+ tab +:+ pretty h1rr +:+ nl +:+
  nl +:+ nl.

(** [Game.string_from_homology]. *)
Definition string_from_homology (self : Game) : string :=
  let h0b := betti 0 (blue self) None in
  let h1b := betti 1 (blue self) None in
  let h0r := betti 0 (red self) None in
  let h1r := betti 1 (red self) None in
  let h0bb := betti 0 (blue self) (Some (blue_base (board self))) in
  let h1bb := betti 1 (blue self) (Some (blue_base (board self))) in
  let h0rr := betti 0 (red self) (Some (red_base (board self))) in
  let h1rr := betti 1 (red self) (Some (red_base (board self))) in
  let winner := winner_text h1b h1bb h1r h1rr in
  table_text h0b h1b h0bb h1bb h0r h1r h0rr h1rr +:+ winner.

(** The table that [string_from_homology] prints above the winner line. *)
Definition summary_table (self : Game) : string :=
  table_text
    (betti 0 (blue self) None) (betti 1 (blue self) None)
    (betti 0 (blue self) (Some (blue_base (board self))))
    (betti 1 (blue self) (Some (blue_base (board self))))
    (betti 0 (red self) None) (betti 1 (red self) None)
    (betti 0 (red self) (Some (red_base (board self))))
    (betti 1 (red self) (Some (red_base (board self)))).

(** A player's win condition: the relative 1st Betti number, relative to
    the player's base, strictly exceeds the absolute one. *)
Definition blue_wins (self : Game) : Prop :=
  (betti 1 (blue self) (Some (blue_base (board self)))
   > betti 1 (blue self) None)%Z.

Definition red_wins (self : Game) : Prop :=
  (betti 1 (red self) (Some (red_base (board self)))
   > betti 1 (red self) None)%Z.

(** *** Notions used to state the chain-complex identity *)

(** The signed faces of a simplex [[v0; ..; vk]]: the face that omits
    [vi], with the sign [(-1)^i]. *)
Fixpoint faces (splx : list Z) : list (Z * list Z) :=
  match splx with
  | [] => []
  | x :: l => (1%Z, l) :: map (λ sf, ((- sf.1)%Z, x :: sf.2)) (faces l)
  end.

(** The sum of [g] over the signed faces of a simplex. *)
Definition bsum (g : list Z → Z) (splx : list Z) : Z :=
  sum_list (map (λ sf, (sf.1 * g sf.2)%Z) (faces splx)).

(** The coefficient of the simplex [rho] in the boundary of [splx]. *)
Definition coef (rho splx : list Z) : Z :=
  bsum (λ f, if decide (f = rho) then 1%Z else 0%Z) splx.

(** A relative subcomplex contains the faces (of at least one vertex) of
    its simplices. *)
Definition face_closed (Y : option (list (list Z))) : Prop :=
  match Y with
  | None => True
  | Some rel => ∀ t i, t ∈ rel → i < length t → 2 ≤ length t → delete i t ∈ rel
  end.

(** An array whose rows agree with its shape. *)
Definition well_formed (A : ndarray) : Prop :=
  length (data A) = (shape A).1 ∧
  Forall (λ row, length row = (shape A).2) (data A).

(** The filled triangle, and one of its edges as a relative subcomplex. *)
Definition filled_triangle : list (list Z) :=
  [[0]; [1]; [2]; [0; 1]; [0; 2]; [1; 2]; [0; 1; 2]]%Z.
Definition edge_subcomplex : list (list Z) := [[0]; [1]; [0; 1]]%Z.

(** The hollow triangle: three vertices, three edges, no face. *)
Definition hollow_triangle : list (list Z) :=
  [[0]; [1]; [2]; [0; 1]; [0; 2]; [1; 2]]%Z.

(** Example games.  A path 0 - 1 - 2 whose end points are the base: the
    territory joins the two pieces of the base.  In [path_game] both
    players hold it; in [blue_game] red holds the bare base. *)
Definition path_complex : list (list Z) := [[0]; [1]; [2]; [0; 1]; [1; 2]]%Z.
Definition path_ends : list (list Z) := [[0]; [2]]%Z.
Definition path_game : Game :=
  mk_Game (mk_Board path_ends path_ends) path_complex path_complex.
Definition blue_game : Game :=
  mk_Game (mk_Board path_ends path_ends) path_complex path_ends.

(** *** Auxiliary routines of simplicialHomology.py *)

(** [closure(toplexes)] of simplicialHomology.py (the name [closure] is
    taken by topology.py's): the set [res] collects, toplex by toplex, the
    combinations of every size from 1 on, and is listed at the end. *)
Definition sh_closure (toplexes : list (list Z)) : list (list Z) :=
  set_iter
    (mjoin (map (λ toplex,
                   mjoin (map (combinations toplex) (seq 1 (length toplex))))
                toplexes)).

(** [simpcluded(spx, simplices)]: the loop stops at the first equal entry. *)
Fixpoint simpcluded (spx : list Z) (simplices : list (list Z)) : bool :=
  match simplices with
  | [] => false
  | s :: rest => if bool_decide (s = spx) then true else simpcluded spx rest
  end.

(** [star(cplx, face)]: [[s for s in cplx if set(face).issubset(s)]]. *)
Definition star (cplx : list (list Z)) (face : list Z) : list (list Z) :=
  filter (λ s, pset face ⊆ pset s) cplx.

(** [sstar(toplexes, complx)]: [A] starts as a copy of [complx] and is
    appended to in the two nested loops. *)
Definition sstar (toplexes complx : list (list Z)) : list (list Z) :=
  let asc := sh_closure toplexes in
  foldl (λ A simplex,
           foldl (λ A b, if simpcluded b A then A else A ++ [b])
                 A (star asc simplex))
        complx complx.

(** *** The players and the claim of a cell (game.py) *)

Inductive Player := NEUTRAL | BLUE | RED.

(** [Game.player]: the [n]-th call returns the [n]-th item of
    [cycle(s(Player.RED, Player.BLUE))]; [order] is the iteration order
    of that two-element [pset]. *)
Definition player (order : list Player) (n : nat) : option Player :=
  cycle order n.

(** [Game.add_cycle_to_player_complex]: the territory of the player, blue
    for [BLUE] and red for any other value, becomes its union with
    [pipe(c, face_from_cycle, closure)].  The union is a new [pset], whose
    iteration order ([blue'], [red']) the code does not fix; [fs] is the
    order in which [closure] reads the faces. *)
Inductive add_cycle_to_player_complex (self : Game) (p : Player)
    (c : list Z) : Game → Prop :=
  | add_cycle_blue (fs blue' : list (list Z)) :
      p = BLUE →
      pset_value fs = face_from_cycle c →
      pset_value blue' = pset_value (blue self) ∪ closure fs →
      add_cycle_to_player_complex self p c
        (mk_Game (board self) blue' (red self))
  | add_cycle_red (fs red' : list (list Z)) :
      p ≠ BLUE →
      pset_value fs = face_from_cycle c →
      pset_value red' = pset_value (red self) ∪ closure fs →
      add_cycle_to_player_complex self p c
        (mk_Game (board self) (blue self) red').

(** A territory is a complex when it holds every subset of its simplices. *)
Definition is_complex (xs : list (list Z)) : Prop :=
  ∀ s s', s ∈ pset_value xs → s' ⊆ s → s' ∈ pset_value xs.

(** *** Hop lengths (simplicialHomology.py) *)

(** [[w for s in toplexes if [v for v in vs if v in s] for w in s]]: the
    vertices of the toplexes that meet [vs]. *)
Definition touched (toplexes : list (list Z)) (vs : list Z) : list Z :=
  mjoin (filter (λ s, filter (λ v, v ∈ s) vs ≠ []) toplexes).

(** The variables of the [while] loop of [vertexHoplength]. *)
Record hop_state := mk_hop {
  vertslist : list Z;
  outlist : list (Z * Z);
  outsimplices : list Z;
  currentlen : Z }.

(** [vertslist and (maxHoplength == None or currentlen < maxHoplength)] *)
Definition hop_guard (maxHoplength : option Z) (st : hop_state) : bool :=
  bool_decide (vertslist st ≠ []) &&
  match maxHoplength with
  | None => true
  | Some m => bool_decide (currentlen st < m)%Z
  end.

(** One pass through the body of the loop. *)
Definition hop_body (toplexes : list (list Z)) (st : hop_state) : hop_state :=
  let nextverts := filter (λ v, v ∈ outsimplices st) (vertslist st) in
  let outlist' :=
    outlist st ++ map (λ v, (v, currentlen st)) nextverts in
  mk_hop (filter (λ v, v ∉ nextverts) (vertslist st))
         outlist'
         (touched toplexes (map fst outlist'))
         (currentlen st + 1).

(** The loop, run for at most [fuel] passes: [None] when the guard still
    holds after that many. *)
Fixpoint hop_loop (fuel : nat) (toplexes : list (list Z))
    (maxHoplength : option Z) (st : hop_state) : option (list (Z * Z)) :=
  if hop_guard maxHoplength st then
    match fuel with
    | 0 => None
    | S fuel => hop_loop fuel toplexes maxHoplength (hop_body toplexes st)
    end
  else Some (outlist st).

(** [vertexHoplength(toplexes, vertices, maxHoplength)] *)
Definition vertexHoplength (fuel : nat) (toplexes : list (list Z))
    (vertices : list Z) (maxHoplength : option Z) : option (list (Z * Z)) :=
  hop_loop fuel toplexes maxHoplength
    (mk_hop (set_iter_vertices
               (filter (λ v, v ∉ vertices) (mjoin toplexes)))
            (map (λ v, (v, 0%Z)) vertices)
            (touched toplexes vertices)
            1).

(** *** Toplexes (simplicialHomology.py) *)

(** [sorted(simplices, key=len, reverse=True)]: a stable sort, the longest
    first; entries of equal length keep their order. *)
Fixpoint insert_by_len (x : list Z) (l : list (list Z)) : list (list Z) :=
  match l with
  | [] => [x]
  | y :: l' =>
      if decide (length x < length y) then y :: insert_by_len x l'
      else x :: l
  end.

Definition sorted_by_len (l : list (list Z)) : list (list Z) :=
  foldr insert_by_len [] l.

(** The test of the inner comprehension of [toplexify], on two pairs of
    [enumerate(simplices)]. *)
Definition absorbs (ispx jsp2 : nat * list Z) : Prop :=
  (ispx.1 ≠ jsp2.1 ∧ pset ispx.2 ⊆ pset jsp2.2) ∧
  (jsp2.1 < ispx.1 ∨ pset ispx.2 = pset jsp2.2).

#[global] Instance absorbs_dec ispx jsp2 : Decision (absorbs ispx jsp2).
Proof. unfold absorbs. apply _. Defined.

(** [toplexify(simplices)]: an entry is kept when the inner list is
    empty. *)
Definition toplexify (simplices : list (list Z)) : list (list Z) :=
  let simplices := sorted_by_len simplices in
  map snd
      (filter (λ ispx, filter (absorbs ispx) (enumerate simplices) = [])
              (enumerate simplices)).

(** * Properties *)

(** ** itertools *)

Lemma elem_of_combinations {A} (l : list A) (r : nat) (t : list A) :
  t ∈ combinations l r ↔ t `sublist_of` l ∧ length t = r.
Proof.
  revert r t. induction l as [|x l IH]; intros [|r] t; simpl.
  - rewrite list_elem_of_singleton, sublist_nil_r. split; [intros ->; done | tauto].
  - rewrite elem_of_nil, sublist_nil_r. split; [done | intros [-> ?]; done].
  - rewrite list_elem_of_singleton. split.
    + intros ->. split; [apply sublist_nil_l | done].
    + intros [_ H]. by apply nil_length_inv.
  - rewrite elem_of_app, list_elem_of_fmap, sublist_cons_r. split.
    + intros [(t' & -> & Ht')|Ht].
      * apply IH in Ht' as [? ?]. split; [right; eauto | simpl; lia].
      * apply IH in Ht as [? ?]. tauto.
    + intros [[Hs|(t' & -> & Hs)] Hlen].
      * right. apply IH. done.
      * left. exists t'. split; [done|]. apply IH. simpl in Hlen. split; [done | lia].
Qed.

Lemma elem_of_powerset {A} (l t : list A) :
  t ∈ powerset l ↔ t `sublist_of` l.
Proof.
  unfold powerset. rewrite list_elem_of_join. split.
  - intros (ts & Ht & Hts). apply list_elem_of_fmap in Hts as (r & -> & _).
    by apply elem_of_combinations in Ht as [? _].
  - intros Hs. exists (combinations l (length t)). split.
    + by apply elem_of_combinations.
    + apply list_elem_of_fmap. exists (length t). split; [done|].
      apply elem_of_seq. apply sublist_length in Hs. lia.
Qed.

Lemma succ_mod (i n : nat) :
  i < n → S i mod n = if decide (S i = n) then 0 else S i.
Proof.
  intros Hi. case_decide as Hn.
  - rewrite Hn. apply Nat.Div0.mod_same.
  - apply Nat.mod_small. lia.
Qed.

Lemma take_from_total {A} (it : iterator A) (f : nat → A) (i n : nat) :
  (∀ j, i ≤ j < i + n → it j = Some (f j)) →
  take_from it i n = map f (seq i n).
Proof.
  revert i. induction n as [|n IH]; intros i Hit; simpl; [done|].
  rewrite Hit by lia. f_equal. apply IH. intros j Hj. apply Hit. lia.
Qed.

Lemma cycle_lookup (c : list Z) (i : nat) :
  c ≠ [] → cycle c i = Some (c !!! (i mod length c)).
Proof.
  intros Hc. unfold cycle. apply list_lookup_lookup_total_lt.
  apply Nat.mod_upper_bound. by destruct c.
Qed.

Lemma windows_of_cycle (c : list Z) :
  take (length c) (sliding_window2 (cycle c)) =
  map (window c) (seq 0 (length c)).
Proof.
  destruct (decide (c = [])) as [->|Hc]; [done|].
  apply take_from_total. intros j _. unfold sliding_window2.
  by rewrite !cycle_lookup.
Qed.

(** ** Sets of vertices and of simplices *)

Lemma pset_sublist (t x : list Z) : t `sublist_of` x → pset t ⊆ pset x.
Proof.
  intros Hs v. unfold pset. rewrite !elem_of_list_to_set.
  intros Hv. eapply sublist_subseteq; eauto.
Qed.

Lemma pset_filter (s : gset Z) (x : list Z) :
  s ⊆ pset x → pset (filter (λ v, v ∈ s) x) = s.
Proof.
  intros Hs. apply set_eq. intros v. unfold pset in *.
  rewrite elem_of_list_to_set, list_elem_of_filter. split; [tauto|].
  intros Hv. split; [done|]. specialize (Hs v Hv).
  by apply elem_of_list_to_set in Hs.
Qed.

Lemma elem_of_pset_value (xs : list (list Z)) (s : gset Z) :
  s ∈ pset_value xs ↔ ∃ x, x ∈ xs ∧ s = pset x.
Proof.
  unfold pset_value. rewrite elem_of_list_to_set, list_elem_of_fmap.
  split; intros (x & H1 & H2); eauto.
Qed.

Lemma pset_value_perm (xs ys : list (list Z)) :
  xs ≡ₚ ys → pset_value xs = pset_value ys.
Proof.
  intros H. apply set_eq. intros s. rewrite !elem_of_pset_value.
  split; intros (x & Hx & ->); exists x; (split; [|done]).
  - by rewrite <- H.
  - by rewrite H.
Qed.

Lemma pset_pair_eq (a b : Z) : pset_pair (a, b) = {[a; b]}.
Proof.
  unfold pset_pair, pset. simpl. apply set_eq. intros v.
  rewrite !elem_of_union, elem_of_empty. tauto.
Qed.

Lemma pair_eq_inv (a b a' b' : Z) :
  ({[a; b]} : gset Z) = {[a'; b']} → (a = a' ∨ a = b') ∧ (a' = a ∨ a' = b).
Proof.
  intros H. split.
  - assert (a ∈ ({[a'; b']} : gset Z)) as Ha.
    { rewrite <- H. apply elem_of_union_l. by apply elem_of_singleton. }
    apply elem_of_union in Ha. by rewrite !elem_of_singleton in Ha.
  - assert (a' ∈ ({[a; b]} : gset Z)) as Ha.
    { rewrite H. apply elem_of_union_l. by apply elem_of_singleton. }
    apply elem_of_union in Ha. by rewrite !elem_of_singleton in Ha.
Qed.

(** ** closure *)

Lemma elem_of_closure (xs : list (list Z)) (s : gset Z) :
  s ∈ closure xs ↔ ∃ x, x ∈ xs ∧ s ⊆ pset x.
Proof.
  unfold closure. rewrite elem_of_list_to_set, list_elem_of_fmap. split.
  - intros (t & -> & Ht). apply list_elem_of_join in Ht as (ts & Ht & Hts).
    apply list_elem_of_fmap in Hts as (x & -> & Hx).
    exists x. split; [done|]. apply pset_sublist. by apply elem_of_powerset.
  - intros (x & Hx & Hs). exists (filter (λ v, v ∈ s) x). split.
    + by rewrite pset_filter.
    + apply list_elem_of_join. exists (powerset x). split.
      * apply elem_of_powerset. apply sublist_filter.
      * apply list_elem_of_fmap. eauto.
Qed.

(** C4, evaluated at [X = {{0}}]: [closure] returns the empty simplex as a
    member, and exactly [{∅, {0}}]; its members are all the subsets of the
    simplices of [X], the empty one included. *)
Lemma closure_contains_empty_simplex :
  (∅ : gset Z) ∈ closure [[0%Z]] ∧
  (∀ s, s ∈ closure [[0%Z]] ↔ s = ∅ ∨ s = {[0%Z]}).
Proof.
  split.
  - apply elem_of_closure. exists [0%Z]. split; [apply list_elem_of_here | done].
  - intros s. rewrite elem_of_closure. split.
    + intros (x & ->%list_elem_of_singleton & Hs).
      destruct (decide (0%Z ∈ s)) as [H0|H0]; [right|left]; apply set_eq; intros v.
      * rewrite elem_of_singleton. split; [|by intros ->].
        intros Hv. apply Hs in Hv. unfold pset in Hv.
        by apply elem_of_list_to_set, list_elem_of_singleton in Hv.
      * rewrite elem_of_empty. split; [|done]. intros Hv.
        assert (v = 0%Z) as ->; [|done]. apply Hs in Hv. unfold pset in Hv.
        by apply elem_of_list_to_set, list_elem_of_singleton in Hv.
    + intros [->| ->]; exists [0%Z]; (split; [apply list_elem_of_here|]).
      * apply empty_subseteq.
      * intros v ->%elem_of_singleton. unfold pset.
        apply elem_of_list_to_set, list_elem_of_here.
Qed.

(** C5: [closure] is idempotent.  The inner result is a [pset]; in
    whatever order [ys] the outer call iterates over it and over its
    simplices, the outer result is the inner one. *)
Theorem closure_idempotent (xs ys : list (list Z)) :
  pset_value ys = closure xs → closure ys = closure xs.
Proof.
  intros Hys. apply set_eq. intros s. rewrite !elem_of_closure. split.
  - intros (y & Hy & Hs).
    assert (pset y ∈ closure xs) as Hc.
    { rewrite <- Hys. apply elem_of_pset_value. eauto. }
    apply elem_of_closure in Hc as (x & Hx & Hyx).
    exists x. split; [done|]. by transitivity (pset y).
  - intros (x & Hx & Hs).
    assert (s ∈ pset_value ys) as Hc.
    { rewrite Hys. apply elem_of_closure. eauto. }
    apply elem_of_pset_value in Hc as (y & Hy & ->). eauto.
Qed.

(** ** edges_from_cycle *)

Lemma window_inj (c : list Z) (i j : nat) :
  NoDup c → 3 ≤ length c → i < length c → j < length c →
  pset_pair (window c i) = pset_pair (window c j) → i = j.
Proof.
  intros Hnd Hn Hi Hj. unfold window. rewrite !pset_pair_eq.
  rewrite !(Nat.mod_small i), !(Nat.mod_small j) by done.
  rewrite !succ_mod by done. intros Heq.
  assert (∀ p q, p < length c → q < length c → c !!! p = c !!! q → p = q) as Hinj.
  { intros p q Hp Hq Hpq. eapply NoDup_lookup; [done| |].
    - by apply list_lookup_lookup_total_lt.
    - rewrite Hpq. by apply list_lookup_lookup_total_lt. }
  apply pair_eq_inv in Heq as [[H1|H1] [H2|H2]];
    repeat case_decide; apply Hinj in H1; try apply Hinj in H2; lia.
Qed.

(** C6: for a cycle of [n >= 3] vertices (a polygon boundary: [n] distinct
    vertices), [edges_from_cycle] returns exactly [n] edges, and its
    members are exactly the pairs [{c[i], c[(i+1) mod n]}], [i < n], the
    wrap-around pair included. *)
Theorem edges_from_cycle_spec (c : list Z) :
  NoDup c → 3 ≤ length c →
  base.size (edges_from_cycle c) = length c ∧
  ∀ e, e ∈ edges_from_cycle c ↔
       ∃ i a b, i < length c ∧ c !! i = Some a ∧
                c !! (S i mod length c) = Some b ∧ e = {[a; b]}.
Proof.
  intros Hnd Hn. unfold edges_from_cycle. rewrite windows_of_cycle. split.
  - rewrite size_list_to_set.
    + by rewrite !length_map, length_seq.
    + rewrite <- list_fmap_compose. apply NoDup_fmap_2_strong; [|apply NoDup_seq].
      intros i j Hi%elem_of_seq Hj%elem_of_seq. simpl.
      apply window_inj; (done || lia).
  - intros e. rewrite elem_of_list_to_set, list_elem_of_fmap.
    assert (∀ i, i < length c → S i mod length c < length c) as Hlt.
    { intros i _. apply Nat.mod_upper_bound. lia. }
    split.
    + intros (w & -> & Hw). apply list_elem_of_fmap in Hw as (i & -> & Hi%elem_of_seq).
      exists i, (c !!! i), (c !!! (S i mod length c)).
      unfold window. rewrite (Nat.mod_small i) by lia. rewrite pset_pair_eq.
      split; [lia|]. split; [apply list_lookup_lookup_total_lt; lia|].
      split; [apply list_lookup_lookup_total_lt; apply Hlt; lia | done].
    + intros (i & a & b & Hi & Ha & Hb & ->). exists (window c i). split.
      * unfold window. rewrite (Nat.mod_small i) by lia. rewrite pset_pair_eq.
        apply list_lookup_total_correct in Ha, Hb. by rewrite Ha, Hb.
      * apply list_elem_of_fmap. exists i. split; [done|]. apply elem_of_seq. lia.
Qed.

(** ** faces_from_edges *)

Lemma elem_of_fan (v0 : Z) (es : list (list Z)) (f : gset Z) :
  f ∈ fan v0 es ↔ ∃ s, s ∈ pset_value es ∧ (v0 ∉ s) ∧ f = s ∪ {[v0]}.
Proof.
  unfold fan. rewrite elem_of_list_to_set, list_elem_of_fmap. split.
  - intros (t & -> & Ht). apply list_elem_of_filter in Ht as [Hv Ht].
    exists (pset t). split; [|done]. apply elem_of_pset_value. eauto.
  - intros (s & Hs & Hv & ->). apply elem_of_pset_value in Hs as (t & Ht & ->).
    exists t. split; [done|]. by apply list_elem_of_filter.
Qed.

Lemma faces_from_edges_apex (es : list (list Z)) (v0 : Z) :
  apex es = Ok v0 → faces_from_edges es = Ok (fan v0 es).
Proof. unfold faces_from_edges. by intros ->. Qed.

Lemma faces_from_edges_cases (es : list (list Z)) :
  faces_from_edges es =
  match es with
  | [] | [] :: _ => Raise StopIteration
  | (v0 :: _) :: _ => Ok (fan v0 es)
  end.
Proof. by destruct es as [|[|v0 t] es]. Qed.

Lemma Ok_inj {A} (a b : A) : Ok a = Ok b → a = b.
Proof. by intros [=]. Qed.

(** Membership in a small set of vertices, by evaluation. *)
Ltac vertex_in H v :=
  apply (f_equal (λ s : gset Z, bool_decide (v ∈ s))) in H;
  vm_compute in H; discriminate H.

(** C7, as stated, fails: the two lists [square1] and [square2] are the
    same set of four edges, iterated from a different first edge, and
    [faces_from_edges] fans them from apex 0 and from apex 1. *)
Lemma faces_from_edges_depends_on_order :
  ¬ (∀ es es', pset_value es = pset_value es' →
               faces_from_edges es = faces_from_edges es').
Proof.
  intros H. specialize (H square1 square2).
  assert (pset_value square1 = pset_value square2) as Hv.
  { apply pset_value_perm. apply Permutation_cons_append. }
  specialize (H Hv).
  rewrite (faces_from_edges_apex square1 0%Z eq_refl) in H.
  rewrite (faces_from_edges_apex square2 1%Z eq_refl) in H.
  apply Ok_inj in H.
  assert (({[0; 1; 2]}%Z : gset Z) ∈ fan 0%Z square1) as Hin.
  { apply elem_of_fan. exists (pset [1; 2]%Z). split; [|split].
    - apply elem_of_pset_value. exists [1; 2]%Z. split; [|done].
      apply list_elem_of_further, list_elem_of_here.
    - by vm_compute.
    - by vm_compute. }
  rewrite H in Hin. apply elem_of_fan in Hin as (s & Hs & Hns & Heq).
  apply elem_of_pset_value in Hs as (t & Ht & ->).
  unfold square2 in Ht. rewrite !elem_of_cons, elem_of_nil in Ht.
  destruct Ht as [->|[->|[->|[->|[]]]]].
  - apply Hns. by vm_compute.
  - vertex_in Heq 3%Z.
  - vertex_in Heq 3%Z.
  - apply Hns. by vm_compute.
Qed.

(** C7, amended: the faces depend on the edge set's value and on the apex
    that its iteration order yields: equal edge sets iterated to the same
    apex (or to the same failure) give the same result. *)
Theorem faces_from_edges_same_apex (es es' : list (list Z)) :
  pset_value es = pset_value es' → apex es = apex es' →
  faces_from_edges es = faces_from_edges es'.
Proof.
  intros Hval Hapex. unfold faces_from_edges. rewrite <- Hapex.
  destruct (apex es) as [v0|e]; simpl; [|done]. f_equal.
  apply set_eq. intros f. rewrite !elem_of_fan. by rewrite Hval.
Qed.

Lemma edges_from_singleton (v : Z) : edges_from_cycle [v] = {[ {[v]} ]}.
Proof.
  unfold edges_from_cycle. rewrite windows_of_cycle. simpl.
  unfold window. simpl. rewrite pset_pair_eq. apply set_eq. intros e.
  rewrite !elem_of_union, elem_of_empty, !elem_of_singleton.
  assert (({[v; v]} : gset Z) = {[v]}) as ->; [|tauto].
  apply set_eq. intros w. rewrite elem_of_union. tauto.
Qed.

Lemma fan_two_edges (f : gset Z) :
  f ∈ fan 0%Z two_edges ↔ f = {[0; 2; 3]}%Z.
Proof.
  rewrite elem_of_fan. split.
  - intros (s & Hs & Hns & ->). apply elem_of_pset_value in Hs as (t & Ht & ->).
    unfold two_edges in Ht. rewrite !elem_of_cons, elem_of_nil in Ht.
    destruct Ht as [->|[->|[]]].
    + exfalso. apply Hns. by vm_compute.
    + by vm_compute.
  - intros ->. exists (pset [2; 3]%Z). split; [|split].
    + apply elem_of_pset_value. exists [2; 3]%Z. split; [|done].
      apply list_elem_of_further, list_elem_of_here.
    + by vm_compute.
    + by vm_compute.
Qed.

(** C8, as stated, fails: the empty cycle and a one-vertex cycle give a
    complex, two disjoint edges (not a cycle) are fanned into the single
    face [{0, 2, 3}], and the only failure, on an empty edge set, is
    [StopIteration]. *)
Lemma malformed_inputs_accepted :
  edges_from_cycle [] = ∅ ∧
  edges_from_cycle [7%Z] = {[ {[7%Z]} ]} ∧
  faces_from_edges two_edges = Ok {[ {[0; 2; 3]}%Z ]} ∧
  faces_from_edges two_edges ≠ Raise InvalidComplex ∧
  faces_from_edges [] = Raise StopIteration ∧
  faces_from_edges [] ≠ Raise InvalidComplex.
Proof.
  split; [done|]. split; [apply edges_from_singleton|].
  assert (faces_from_edges two_edges = Ok {[ {[0; 2; 3]}%Z ]}) as H.
  { rewrite (faces_from_edges_apex two_edges 0%Z eq_refl).
    apply f_equal, set_eq. intros f. rewrite fan_two_edges. by rewrite elem_of_singleton. }
  split; [done|]. split; [by rewrite H|]. done.
Qed.

(** C8, amended: no input is rejected with [InvalidComplex].
    [edges_from_cycle] returns the empty complex for the empty cycle and
    [{{v}}] for the cycle [[v]]; [faces_from_edges] fails, with
    [StopIteration], exactly when the edge set or its first edge is empty,
    and otherwise returns the fan from the first vertex of the first edge,
    whether or not the edges form a simple cycle. *)
Theorem malformed_inputs_not_rejected :
  edges_from_cycle [] = ∅ ∧
  (∀ v, edges_from_cycle [v] = {[ {[v]} ]}) ∧
  (∀ es, faces_from_edges es =
         match es with
         | [] | [] :: _ => Raise StopIteration
         | (v0 :: _) :: _ => Ok (fan v0 es)
         end) ∧
  (∀ es, faces_from_edges es ≠ Raise InvalidComplex).
Proof.
  split; [done|]. split; [apply edges_from_singleton|]. split.
  - apply faces_from_edges_cases.
  - intros es. rewrite faces_from_edges_cases. by destruct es as [|[|v0 t] es].
Qed.

(** ** The boundary builder: shapes and the empty complex *)

Lemma set_iter_nil : set_iter [] = [].
Proof.
  destruct (set_iter []) as [|x l] eqn:E; [done|].
  assert (x ∈ set_iter []) as Hx by (rewrite E; apply list_elem_of_here).
  apply (proj1 (set_iter_elem _ _)) in Hx. by apply elem_of_nil in Hx.
Qed.

Lemma ksimplices_nil (k : Z) (relative : option (list (list Z))) :
  ksimplices [] k relative = [].
Proof.
  unfold ksimplices. simpl. destruct relative; simpl.
  - rewrite set_iter_nil. simpl. apply set_iter_nil.
  - apply set_iter_nil.
Qed.

Lemma shape_setitem (A : ndarray) (r c : nat) (v : Z) :
  shape (setitem A r c v) = shape A.
Proof. done. Qed.

Lemma shape_assignments (l : list (nat * Z)) (c : nat) (A : ndarray) :
  shape (foldl (λ b rv, setitem b rv.1 c rv.2) A l) = shape A.
Proof. revert A. induction l as [|rv l IH]; intros A; simpl; [done|]. by rewrite IH. Qed.

Lemma shape_boundary_column (d : gmap (list Z) nat) (k : Z) (A : ndarray)
    (col : nat * list Z) :
  shape (boundary_column d k A col) = shape A.
Proof. destruct col as [colIdx splx]. apply shape_assignments. Qed.

Lemma shape_boundary_columns (d : gmap (list Z) nat) (k : Z)
    (cols : list (nat * list Z)) (A : ndarray) :
  shape (foldl (boundary_column d k) A cols) = shape A.
Proof.
  revert A. induction cols as [|col cols IH]; intros A; simpl; [done|].
  by rewrite IH, shape_boundary_column.
Qed.

Lemma boundary_ncols (X : list (list Z)) (k : Z)
    (relative km1chain : option (list (list Z))) :
  (shape (boundary X k relative km1chain).1).2 = length (ksimplices X k relative).
Proof.
  unfold boundary. case_match; simpl; [done|].
  by rewrite shape_boundary_columns.
Qed.

(** ** C2 *)

Lemma homologyRankOnly_eq (b1 b2 : ndarray) :
  homologyRankOnly b1 b2 =
  (Z.of_nat (shape b1).2 - numerical_rank b1 - numerical_rank b2)%Z.
Proof.
  unfold homologyRankOnly, numerical_rank.
  repeat case_bool_decide; lia.
Qed.

(** C2: the rank-only computation returns the column count of [D_k], which
    is the number of k-simplices, minus the numerical rank of [D_k] minus
    the numerical rank of [D_{k+1}], the rank of an array of size 0 being
    0; this is what [simplicialHomology], and so [betti], returns for the
    two boundary matrices that it builds. *)
Theorem homologyRankOnly_rank_nullity :
  (∀ b1 b2, homologyRankOnly b1 b2 =
            (Z.of_nat (shape b1).2 - numerical_rank b1 - numerical_rank b2)%Z) ∧
  (∀ k X Y,
     let X' := map sorted (integerVertices X Y).1 in
     let Y' := map sorted (integerVertices X Y).2 in
     let dk := boundary X' k (Some Y') None in
     let dkp1 := boundary X' (k + 1) (Some Y') dk.2 in
     simplicialHomology k X Y =
       (Z.of_nat (length (ksimplices X' k (Some Y')))
        - numerical_rank dk.1 - numerical_rank dkp1.1)%Z ∧
     betti k X Y = simplicialHomology k X Y).
Proof.
  split; [apply homologyRankOnly_eq|]. intros k X Y X' Y' dk dkp1. split.
  - unfold simplicialHomology. destruct (integerVertices X Y) as [X0 Y0] eqn:E.
    subst X' Y' dk dkp1. simpl.
    destruct (boundary (map sorted X0) k (Some (map sorted Y0)) None)
      as [d1 c1] eqn:E1. simpl.
    destruct (boundary (map sorted X0) (k + 1) (Some (map sorted Y0)) c1)
      as [d2 c2] eqn:E2. simpl.
    rewrite homologyRankOnly_eq. do 2 f_equal.
    change d1 with (d1, c1).1. rewrite <- E1. by rewrite boundary_ncols.
  - by destruct Y.
Qed.

(** ** C10 *)

(** C10: on the empty complex the boundary builder returns the 0-by-0
    zero matrix, and [betti] returns 0 for every index [k >= 0], with no
    subspace and with the empty subspace. *)
Theorem betti_empty_complex (k : Z) :
  (0 ≤ k)%Z →
  betti k [] None = 0%Z ∧ betti k [] (Some []) = 0%Z ∧
  ∀ relative km1chain, boundary [] k relative km1chain = (zeros 0 0, None).
Proof.
  intros _.
  assert (∀ j relative km1chain,
            boundary [] j relative km1chain = (zeros 0 0, None)) as Hb.
  { intros j relative km1chain. unfold boundary. rewrite ksimplices_nil. simpl.
    by rewrite orb_true_r. }
  assert (∀ Y, Y = None ∨ Y = Some [] →
               simplicialHomology k [] Y = 0%Z) as Hs.
  { intros Y HY. unfold simplicialHomology.
    assert (integerVertices [] Y = ([], [])) as ->
      by (by destruct HY as [-> | ->]).
    change (map sorted []) with (@nil (list Z)).
    rewrite Hb. cbv beta iota. by rewrite Hb. }
  split; [apply Hs; by left|]. split; [apply Hs; by right|]. apply Hb.
Qed.

(** ** C1 and C9: the winner line *)

Lemma string_from_homology_eq (self : Game) :
  string_from_homology self =
  summary_table self +:+
  winner_text (betti 1 (blue self) None)
              (betti 1 (blue self) (Some (blue_base (board self))))
              (betti 1 (red self) None)
              (betti 1 (red self) (Some (red_base (board self)))).
Proof. done. Qed.

Lemma string_app_inv_head (s t1 t2 : string) : s +:+ t1 = s +:+ t2 → t1 = t2.
Proof. apply (inj (String.app s)). Qed.

Lemma string_app_empty_r (s : string) : s +:+ "" = s.
Proof.
  induction s as [|a s IH]; [done|].
  change (String a s +:+ "") with (String a (s +:+ "")). by f_equal.
Qed.

(** C1: the summary declares blue the winner when blue's relative 1st
    Betti number exceeds blue's absolute one, red when (blue's does not
    and) red's relative 1st Betti number exceeds red's absolute one, and
    prints no winner otherwise. *)
Theorem string_from_homology_winner (self : Game) :
  (blue_wins self →
   string_from_homology self = summary_table self +:+ "winner: blue!") ∧
  (¬ blue_wins self → red_wins self →
   string_from_homology self = summary_table self +:+ "winner: red!") ∧
  (¬ blue_wins self → ¬ red_wins self →
   string_from_homology self = summary_table self).
Proof.
  rewrite string_from_homology_eq. unfold blue_wins, red_wins, winner_text.
  repeat split; intros; repeat case_bool_decide;
    rewrite ?string_app_empty_r; done.
Qed.

(** C9: when both win conditions hold the summary declares blue; the red
    message is produced only when blue's condition fails and red's holds. *)
Theorem string_from_homology_blue_first (self : Game) :
  (blue_wins self → red_wins self →
   string_from_homology self = summary_table self +:+ "winner: blue!") ∧
  (string_from_homology self = summary_table self +:+ "winner: red!" ↔
   ¬ blue_wins self ∧ red_wins self).
Proof.
  rewrite string_from_homology_eq. unfold blue_wins, red_wins, winner_text.
  split; [intros; by rewrite bool_decide_eq_true_2|]. split.
  - intros H%string_app_inv_head. by repeat case_bool_decide.
  - intros [Hb Hr]. by rewrite bool_decide_eq_false_2, bool_decide_eq_true_2.
Qed.

(** ** The chain-complex identity *)

(** *** Sums over lists *)

Lemma sum_list_cons (a : Z) (l : list Z) :
  sum_list (a :: l) = (a + sum_list l)%Z.
Proof. done. Qed.

Lemma sum_list_app (l1 l2 : list Z) :
  sum_list (l1 ++ l2) = (sum_list l1 + sum_list l2)%Z.
Proof. induction l1 as [|a l1 IH]; simpl; [done|]. rewrite IH. lia. Qed.

Lemma sum_list_zero {A} (f : A → Z) (l : list A) :
  (∀ x, x ∈ l → f x = 0%Z) → sum_list (map f l) = 0%Z.
Proof.
  induction l as [|a l IH]; intros H; simpl; [done|].
  rewrite H by apply list_elem_of_here. rewrite IH; [done|].
  intros x Hx. apply H. by apply list_elem_of_further.
Qed.

Lemma sum_list_ext {A} (f g : A → Z) (l : list A) :
  (∀ x, x ∈ l → f x = g x) → sum_list (map f l) = sum_list (map g l).
Proof.
  induction l as [|a l IH]; intros H; simpl; [done|].
  rewrite H by apply list_elem_of_here. rewrite IH; [done|].
  intros x Hx. apply H. by apply list_elem_of_further.
Qed.

Lemma sum_list_plus {A} (f g : A → Z) (l : list A) :
  sum_list (map (λ x, f x + g x)%Z l) =
  (sum_list (map f l) + sum_list (map g l))%Z.
Proof. induction l as [|a l IH]; simpl; [done|]. rewrite IH. lia. Qed.

Lemma sum_list_scale {A} (c : Z) (f : A → Z) (l : list A) :
  sum_list (map (λ x, c * f x)%Z l) = (c * sum_list (map f l))%Z.
Proof. induction l as [|a l IH]; simpl; [lia|]. rewrite IH. lia. Qed.

(** Over a list without duplicates, an indicator picks one term. *)
Lemma sum_list_indicator (G : list Z → Z) (f : list Z) (K : list (list Z)) :
  NoDup K →
  sum_list (map (λ t, (if decide (f = t) then 1 else 0) * G t)%Z K) =
  if decide (f ∈ K) then G f else 0%Z.
Proof.
  induction 1 as [|t K Ht HK IH].
  - case_decide as H; [by apply elem_of_nil in H | done].
  - rewrite map_cons, sum_list_cons, IH.
    assert (f ∈ t :: K ↔ f = t ∨ f ∈ K) as Hc by apply elem_of_cons.
    repeat case_decide; subst; try lia; tauto.
Qed.

(** *** Signed faces *)

Lemma bsum_cons (g : list Z → Z) (x : Z) (l : list Z) :
  bsum g (x :: l) = (g l - bsum (λ f, g (x :: f)) l)%Z.
Proof.
  unfold bsum. simpl. rewrite map_map. simpl.
  rewrite (sum_list_ext _ (λ sf, -1 * (sf.1 * g (x :: sf.2)))%Z)
    by (intros; lia).
  rewrite sum_list_scale. lia.
Qed.

Lemma bsum_ext (g h : list Z → Z) (splx : list Z) :
  (∀ f, g f = h f) → bsum g splx = bsum h splx.
Proof. intros H. unfold bsum. apply sum_list_ext. intros sf _. by rewrite H. Qed.

(** The boundary of a boundary vanishes, whatever is summed over the
    codimension-2 faces. *)
Lemma bsum_bsum (g : list Z → Z) (splx : list Z) :
  bsum (bsum g) splx = 0%Z.
Proof.
  revert g. induction splx as [|x l IH]; intros g; [done|].
  rewrite bsum_cons.
  rewrite (bsum_ext (λ f, bsum g (x :: f))
             (λ f, g f - bsum (λ f', g (x :: f')) f)%Z)
    by (intros; apply bsum_cons).
  unfold bsum at 2. rewrite (sum_list_ext _ (λ sf,
    sf.1 * g sf.2 + -1 * (sf.1 * bsum (λ f', g (x :: f')) sf.2))%Z)
    by (intros; lia).
  rewrite sum_list_plus, sum_list_scale.
  fold (bsum g l). fold (bsum (bsum (λ f', g (x :: f'))) l).
  rewrite IH. lia.
Qed.

Lemma sign_S (i : nat) : sign (S i) = (- sign i)%Z.
Proof.
  unfold sign. rewrite Nat.even_succ, <- Nat.negb_even.
  by destruct (Nat.even i).
Qed.

Lemma faces_seq (splx : list Z) :
  faces splx = map (λ i, (sign i, delete i splx)) (seq 0 (length splx)).
Proof.
  induction splx as [|x l IH]; [done|].
  cbn [faces length seq map]. f_equal.
  rewrite IH, <- fmap_S_seq, !map_map. apply map_ext. intros i. simpl.
  by rewrite sign_S.
Qed.

Lemma elem_of_faces (sf : Z * list Z) (splx : list Z) :
  sf ∈ faces splx → ∃ i, i < length splx ∧ sf.2 = delete i splx.
Proof.
  rewrite faces_seq, list_elem_of_fmap. intros (i & -> & Hi%elem_of_seq).
  exists i. split; [lia | done].
Qed.

Lemma NoDup_faces (splx : list Z) :
  NoDup splx → NoDup (map snd (faces splx)).
Proof.
  induction 1 as [|x l Hx Hl IH]; [constructor|].
  cbn [faces map]. rewrite map_map. simpl. constructor.
  - rewrite list_elem_of_fmap. intros (sf & Heq & _).
    apply Hx. rewrite Heq. apply list_elem_of_here.
  - rewrite <- (map_map snd (cons x)). apply NoDup_fmap_2; [|done].
    intros f1 f2 [=]. done.
Qed.

(** *** The key lists that [boundary] builds *)

Lemma combinations_all {A} (l : list A) :
  combinations l (length l) = [l].
Proof.
  induction l as [|x l IH]; [done|]. cbn [length combinations].
  rewrite IH. simpl.
  assert (combinations l (S (length l)) = []) as ->; [|done].
  destruct (combinations l (S (length l))) as [|t ts] eqn:E; [done|].
  assert (t ∈ combinations l (S (length l))) as Ht
    by (rewrite E; apply list_elem_of_here).
  apply elem_of_combinations in Ht as [Hs%sublist_length Hlen]. lia.
Qed.

Lemma combinations_seq (s m : nat) :
  combinations (seq s (S m)) m =
  reverse (map (λ i, delete i (seq s (S m))) (seq 0 (S m))).
Proof.
  revert s. induction m as [|m IH]; intros s; [done|].
  change (seq s (S (S m))) with (s :: seq (S s) (S m)).
  cbn [combinations]. rewrite IH.
  pose proof (combinations_all (seq (S s) (S m))) as Hall.
  rewrite length_seq in Hall. rewrite Hall.
  change (seq 0 (S (S m))) with (0 :: seq 1 (S m)).
  rewrite map_cons, reverse_cons. f_equal.
  rewrite fmap_reverse. f_equal.
  rewrite <- (fmap_S_seq 0), <- !list_fmap_compose. done.
Qed.

Lemma indexLst_eq (k : Z) :
  (0 ≤ k)%Z →
  indexLst k =
  map (λ i, delete i (seq 0 (S (Z.to_nat k)))) (seq 0 (S (Z.to_nat k))).
Proof.
  intros Hk. unfold indexLst.
  replace (Z.to_nat (k + 1)) with (S (Z.to_nat k)) by lia.
  by rewrite combinations_seq, reverse_involutive.
Qed.

Lemma lookups_seq (splx : list Z) :
  map (λ i, splx !!! i) (seq 0 (length splx)) = splx.
Proof.
  apply list_eq. intros i. rewrite list_lookup_fmap.
  destruct (decide (i < length splx)) as [Hi|Hi].
  - rewrite lookup_seq_lt by done. simpl.
    symmetry. by apply list_lookup_lookup_total_lt.
  - rewrite lookup_seq_ge by lia. simpl. symmetry. apply lookup_ge_None. lia.
Qed.

Lemma rowKey_eq (k : Z) (splx : list Z) :
  (0 ≤ k)%Z → length splx = S (Z.to_nat k) →
  map (λ li, map (λ i, splx !!! i) li) (indexLst k) =
  map (λ i, delete i splx) (seq 0 (length splx)).
Proof.
  intros Hk Hlen. rewrite indexLst_eq, map_map, Hlen by done.
  apply map_ext. intros i.
  rewrite (list_fmap_delete (λ i, splx !!! i)), <- Hlen. by rewrite lookups_seq.
Qed.

(** *** The row dictionary *)

Lemma dict_zip_lookup_gen (C : list (list Z)) (s : nat)
    (d0 : gmap (list Z) nat) (f : list Z) (r : nat) :
  NoDup C → (∀ x, x ∈ C → d0 !! x = None) →
  foldl (λ d kv, <[kv.1 := kv.2]> d) d0 (zip C (seq s (length C))) !! f = Some r ↔
  d0 !! f = Some r ∨ ∃ i, C !! i = Some f ∧ r = s + i.
Proof.
  intros HC. revert s d0. induction HC as [|x C Hx HC IH]; intros s d0 Hd0.
  - simpl. split; [by left|]. intros [H|(i & H & _)]; [done|].
    by rewrite lookup_nil in H.
  - cbn [length seq zip zip_with foldl]. simpl. rewrite IH.
    + split.
      * intros [H|(i & Hi & ->)].
        -- destruct (decide (x = f)) as [->|Hne].
           ++ rewrite lookup_insert_eq in H. injection H as <-.
              right. exists 0. split; [done | lia].
           ++ rewrite lookup_insert_ne in H by done. by left.
        -- right. exists (S i). split; [done | lia].
      * intros [H|(i & Hi & ->)].
        -- left. rewrite lookup_insert_ne; [done|]. intros ->.
           rewrite Hd0 in H by apply list_elem_of_here. done.
        -- destruct i as [|i]; simpl in Hi.
           ++ injection Hi as ->. left. rewrite lookup_insert_eq. f_equal. lia.
           ++ right. exists i. split; [done | lia].
    + intros y Hy. rewrite lookup_insert_ne.
      * apply Hd0. by apply list_elem_of_further.
      * intros ->. done.
Qed.

Lemma dict_zip_lookup (C : list (list Z)) (f : list Z) (r : nat) :
  NoDup C →
  dict (zip C (seq 0 (length C))) !! f = Some r ↔ C !! r = Some f.
Proof.
  intros HC. unfold dict. rewrite dict_zip_lookup_gen by done.
  rewrite lookup_empty. split.
  - intros [H|(i & Hi & ->)]; done.
  - intros H. right. by exists r.
Qed.

(** *** The assignments of one column *)

Lemma omap_map {A B C} (f : B → option C) (g : A → B) (l : list A) :
  omap f (map g l) = omap (λ x, f (g x)) l.
Proof.
  induction l as [|a l IH]; simpl; [done|].
  destruct (f (g a)); [f_equal|]; exact IH.
Qed.

Lemma omap_ext_in {A B} (f g : A → option B) (l : list A) :
  (∀ x, x ∈ l → f x = g x) → omap f l = omap g l.
Proof.
  induction l as [|a l IH]; intros H; simpl; [done|].
  rewrite <- (H a) by apply list_elem_of_here.
  assert (omap f l = omap g l) as IH'.
  { apply IH. intros x Hx. apply H. by apply list_elem_of_further. }
  destruct (f a); [f_equal|]; exact IH'.
Qed.

Lemma zip_map_r {A B} (F : A → B) (l : list A) :
  zip l (map F l) = map (λ i, (i, F i)) l.
Proof. induction l as [|a l IH]; simpl; [done|]. by rewrite IH. Qed.

Lemma length_indexLst (k : Z) :
  (0 ≤ k)%Z → length (indexLst k) = S (Z.to_nat k).
Proof. intros Hk. by rewrite indexLst_eq, length_map, length_seq. Qed.

Lemma coefLst_lookup (n i : nat) : i < n → coefLst n !!! i = sign i.
Proof.
  intros Hi. unfold coefLst. apply list_lookup_total_correct.
  rewrite list_lookup_fmap, lookup_seq_lt by done. done.
Qed.

Lemma rowIdxVals_eq (d : gmap (list Z) nat) (k : Z) (splx : list Z) :
  (0 ≤ k)%Z → length splx = S (Z.to_nat k) →
  omap (λ '(ci, v), (λ r, (r, coefLst (length (indexLst k)) !!! ci)) <$> v)
       (enumerate
          (map (λ rowKeyStr, d !! rowKeyStr)
               (map (λ li, map (λ i, splx !!! i) li) (indexLst k)))) =
  omap (λ sf, (λ r, (r, sf.1)) <$> d !! sf.2) (faces splx).
Proof.
  intros Hk Hlen. rewrite rowKey_eq, length_indexLst, <- Hlen by done.
  unfold enumerate. rewrite map_map, length_map, length_seq.
  rewrite zip_map_r, faces_seq, !omap_map.
  apply omap_ext_in. intros i Hi%elem_of_seq. simpl.
  by rewrite coefLst_lookup by lia.
Qed.

(** *** Arrays *)

Lemma well_formed_zeros (m n : nat) : well_formed (zeros m n).
Proof.
  split; simpl; [apply length_replicate|].
  apply Forall_forall. intros row Hrow%elem_of_replicate.
  destruct Hrow as [-> _]. apply length_replicate.
Qed.

Lemma item_zeros (m n r c : nat) : item (zeros m n) r c = 0%Z.
Proof.
  unfold item, zeros. simpl.
  destruct (replicate m (replicate n 0%Z) !! r) as [row|] eqn:E; [|done].
  apply lookup_replicate in E as [-> _]. simpl.
  destruct (replicate n 0%Z !! c) as [z|] eqn:E'; [|done].
  by apply lookup_replicate in E' as [-> _].
Qed.

Lemma well_formed_setitem (A : ndarray) (r c : nat) (v : Z) :
  well_formed A → well_formed (setitem A r c v).
Proof.
  intros [Hrows Hcols]. split; simpl; [by rewrite length_alter|].
  apply Forall_forall. intros row Hrow.
  apply list_elem_of_lookup in Hrow as [i Hi].
  destruct (decide (i = r)) as [->|Hne].
  - rewrite list_lookup_alter_eq in Hi.
    destruct (data A !! r) as [row0|] eqn:E; [|done].
    injection Hi as <-. rewrite length_insert.
    eapply (proj1 (Forall_forall _ _) Hcols), list_elem_of_lookup_2, E.
  - rewrite list_lookup_alter_ne in Hi by done.
    eapply (proj1 (Forall_forall _ _) Hcols), list_elem_of_lookup_2, Hi.
Qed.

Lemma item_setitem (A : ndarray) (r c : nat) (v : Z) (r' c' : nat) :
  well_formed A → r < (shape A).1 → c < (shape A).2 →
  item (setitem A r c v) r' c' =
  if decide (r' = r ∧ c' = c) then v else item A r' c'.
Proof using Type.
  (* the rank oracle plays no part in the boundary matrices *)
  clear matrix_rank.
  intros [Hrows Hcols] Hr Hc. unfold item, setitem. simpl.
  destruct (decide (r' = r)) as [->|Hne].
  - rewrite list_lookup_alter_eq.
    destruct (data A !! r) as [row|] eqn:E.
    + simpl. assert (length row = (shape A).2) as Hlen.
      { eapply (proj1 (Forall_forall _ _) Hcols), list_elem_of_lookup_2, E. }
      destruct (decide (c' = c)) as [->|Hnc].
      * rewrite list_lookup_insert_eq by lia. by rewrite decide_True.
      * rewrite list_lookup_insert_ne by done. rewrite decide_False; [done|tauto].
    + apply lookup_ge_None in E. lia.
  - rewrite list_lookup_alter_ne by done. rewrite decide_False; [done|tauto].
Qed.

Lemma assignments_spec (l : list (nat * Z)) (c : nat) (A : ndarray) :
  well_formed A → c < (shape A).2 →
  (∀ rv, rv ∈ l → rv.1 < (shape A).1) → NoDup (map fst l) →
  let B := foldl (λ b rv, setitem b rv.1 c rv.2) A l in
  well_formed B ∧
  (∀ r s, (r, s) ∈ l → item B r c = s) ∧
  (∀ r, r ∉ map fst l → item B r c = item A r c) ∧
  (∀ r c', c' ≠ c → item B r c' = item A r c').
Proof using Type.
  clear matrix_rank.
  revert A. induction l as [|[r0 s0] l IH]; intros A HA Hc Hrows Hnd B.
  - subst B. simpl. split; [done|]. split; [|done].
    intros r s H. by apply elem_of_nil in H.
  - apply NoDup_cons in Hnd as [Hr0 Hnd]. simpl in Hr0.
    assert (r0 < (shape A).1) as Hr0lt by apply (Hrows (r0, s0)), list_elem_of_here.
    destruct (IH (setitem A r0 c s0)) as (HB & H1 & H2 & H3).
    + by apply well_formed_setitem.
    + done.
    + intros rv Hrv. apply Hrows. by apply list_elem_of_further.
    + done.
    + subst B. cbn [foldl fst snd]. split; [done|]. split; [|split].
      * intros r s Hin. apply elem_of_cons in Hin as [[= -> ->]|Hin].
        -- rewrite H2 by done. rewrite item_setitem by done.
           by rewrite decide_True.
        -- by apply H1.
      * intros r Hr. rewrite map_cons, not_elem_of_cons in Hr.
        destruct Hr as [Hne Hr]. simpl in Hne. rewrite H2 by done.
        rewrite item_setitem by done. rewrite decide_False; [done|tauto].
      * intros r c' Hne. rewrite H3 by done.
        rewrite item_setitem by done. rewrite decide_False; [done|tauto].
Qed.

(** *** The entries of one column are the boundary coefficients *)

Lemma sum_faces_hit (F : list (Z * list Z)) (s : Z) (f : list Z) :
  NoDup (map snd F) → (s, f) ∈ F →
  sum_list (map (λ sf, sf.1 * (if decide (sf.2 = f) then 1 else 0))%Z F) = s.
Proof.
  induction F as [|sf0 F IH]; intros Hnd Hin; [by apply elem_of_nil in Hin|].
  rewrite map_cons in Hnd. apply NoDup_cons in Hnd as [Hsf0 Hnd].
  rewrite map_cons, sum_list_cons.
  apply elem_of_cons in Hin as [<-|Hin].
  - simpl. rewrite decide_True by done. rewrite sum_list_zero; [lia|].
    intros sf Hsf. rewrite decide_False; [lia|]. intros Heq.
    apply Hsf0. rewrite <- Heq. apply list_elem_of_fmap. by exists sf.
  - rewrite IH by done. rewrite decide_False; [lia|]. intros Heq.
    apply Hsf0. rewrite Heq. apply list_elem_of_fmap. by exists (s, f).
Qed.

Lemma coef_hit (s : Z) (f splx : list Z) :
  NoDup splx → (s, f) ∈ faces splx → coef f splx = s.
Proof. intros Hnd Hin. apply sum_faces_hit; [by apply NoDup_faces|done]. Qed.

Lemma coef_miss (rho splx : list Z) :
  (∀ sf, sf ∈ faces splx → sf.2 ≠ rho) → coef rho splx = 0%Z.
Proof.
  intros H. apply sum_list_zero. intros sf Hsf.
  rewrite decide_False by (by apply H). lia.
Qed.

Lemma NoDup_rowIdxVals (d : gmap (list Z) nat) (F : list (Z * list Z)) :
  (∀ f1 f2 r, d !! f1 = Some r → d !! f2 = Some r → f1 = f2) →
  NoDup (map snd F) →
  NoDup (map fst (omap (λ sf, (λ r, (r, sf.1)) <$> d !! sf.2) F)).
Proof.
  intros Hinj. induction F as [|sf0 F IH]; intros Hnd; [constructor|].
  rewrite map_cons in Hnd. apply NoDup_cons in Hnd as [Hsf0 Hnd].
  simpl. destruct (d !! sf0.2) as [r|] eqn:E; simpl; [|by apply IH].
  constructor; [|by apply IH].
  rewrite list_elem_of_fmap. intros ([r' s'] & Heq & Hin). simpl in Heq. subst r'.
  apply list_elem_of_omap in Hin as (sf & Hsf & Hd).
  destruct (d !! sf.2) as [r''|] eqn:E'; [|done]. simpl in Hd.
  injection Hd as -> _. apply Hsf0.
  rewrite (Hinj _ _ _ E E'). apply list_elem_of_fmap. by exists sf.
Qed.

Lemma boundary_column_spec (C : list (list Z)) (k : Z) (A : ndarray)
    (c : nat) (splx : list Z) :
  (0 ≤ k)%Z → NoDup C → NoDup splx → length splx = S (Z.to_nat k) →
  well_formed A → (shape A).1 = length C → c < (shape A).2 →
  (∀ r, item A r c = 0%Z) →
  let B := boundary_column (dict (zip C (seq 0 (length C)))) k A (c, splx) in
  well_formed B ∧
  (∀ r, r < length C → item B r c = coef (C !!! r) splx) ∧
  (∀ r c', c' ≠ c → item B r c' = item A r c').
Proof using Type.
  clear matrix_rank.
  intros Hk HC Hsplx Hlen HA Hrows Hc Hzero B. subst B.
  unfold boundary_column. rewrite rowIdxVals_eq by done.
  set (d := dict (zip C (seq 0 (length C)))).
  set (l := omap (λ sf, (λ r, (r, sf.1)) <$> d !! sf.2) (faces splx)).
  assert (∀ r s, (r, s) ∈ l ↔ ∃ f, (s, f) ∈ faces splx ∧ C !! r = Some f) as Hl.
  { intros r s. unfold l. rewrite list_elem_of_omap. split.
    - intros ([s' f] & Hin & Hd). simpl in Hd.
      destruct (d !! f) as [r'|] eqn:E; [|done]. simpl in Hd.
      injection Hd as -> ->. exists f. split; [done|].
      by apply dict_zip_lookup.
    - intros (f & Hin & HCr). exists (s, f). split; [done|]. simpl.
      apply dict_zip_lookup in HCr; [|done]. fold d in HCr. by rewrite HCr. }
  destruct (assignments_spec l c A) as (HB & H1 & H2 & H3); [done|done| | |].
  - intros [r s] Hin. apply Hl in Hin as (f & _ & Hf). simpl.
    rewrite Hrows. by eapply lookup_lt_Some.
  - apply NoDup_rowIdxVals; [|by apply NoDup_faces].
    intros f1 f2 r H1 H2. apply dict_zip_lookup in H1, H2; [|done..]. congruence.
  - split; [done|]. split; [|done].
    intros r Hr. pose proof (list_lookup_lookup_total_lt C r Hr) as HCr.
    destruct (decide (C !!! r ∈ map snd (faces splx))) as [Hin|Hout].
    + apply list_elem_of_fmap in Hin as ([s f] & Heq & Hin). simpl in Heq.
      rewrite (H1 r s).
      * rewrite Heq. symmetry. by apply coef_hit.
      * apply Hl. exists f. split; [done|]. by rewrite <- Heq.
    + rewrite H2, Hzero.
      * symmetry. apply coef_miss. intros sf Hsf Heq. apply Hout.
        rewrite <- Heq. apply list_elem_of_fmap. by exists sf.
      * rewrite list_elem_of_fmap. intros ([r' s] & Heq & Hin). simpl in Heq.
        subst r'. apply Hl in Hin as (f & Hin & Hf). apply Hout.
        rewrite HCr in Hf. injection Hf as <-.
        apply list_elem_of_fmap. by exists (s, C !!! r).
Qed.

(** *** All the columns *)

Lemma enumerate_snoc {A} (l : list A) (x : A) :
  enumerate (l ++ [x]) = enumerate l ++ [(length l, x)].
Proof.
  unfold enumerate. rewrite length_app, seq_app. simpl.
  rewrite zip_with_app by (by rewrite length_seq). done.
Qed.

Lemma item_out_of_rows (A : ndarray) (r c : nat) :
  well_formed A → (shape A).1 ≤ r → item A r c = 0%Z.
Proof.
  intros [Hrows _] Hr. unfold item.
  rewrite (proj2 (lookup_ge_None _ _)) by lia. done.
Qed.

Lemma boundary_columns_spec (C K : list (list Z)) (k : Z) (n : nat) :
  (0 ≤ k)%Z → NoDup C →
  Forall (λ splx, NoDup splx ∧ length splx = S (Z.to_nat k)) K →
  length K ≤ n →
  let B := foldl (boundary_column (dict (zip C (seq 0 (length C)))) k)
                 (zeros (length C) n) (enumerate K) in
  well_formed B ∧
  ∀ r c, item B r c =
         if decide (r < length C ∧ c < length K)
         then coef (C !!! r) (K !!! c) else 0%Z.
Proof using Type.
  clear matrix_rank.
  intros Hk HC. induction K as [|splx K IH] using rev_ind; intros HK Hn B.
  - subst B. simpl. split; [apply well_formed_zeros|]. intros r c.
    rewrite item_zeros. rewrite decide_False; [done|]. simpl. lia.
  - apply Forall_app in HK as [HK Hsplx].
    apply Forall_singleton in Hsplx as [Hnd Hlen].
    rewrite length_app in Hn. simpl in Hn.
    destruct IH as [HB0 Hitems]; [done|lia|].
    subst B. rewrite enumerate_snoc, foldl_app. cbn [foldl].
    set (B0 := foldl (boundary_column (dict (zip C (seq 0 (length C)))) k)
                     (zeros (length C) n) (enumerate K)) in *.
    assert (shape B0 = (length C, n)) as Hshape
      by (unfold B0; by rewrite shape_boundary_columns).
    destruct (boundary_column_spec C k B0 (length K) splx)
      as (HB & H1 & H2); try done.
    + by rewrite Hshape.
    + rewrite Hshape. simpl. lia.
    + intros r. rewrite Hitems. rewrite decide_False; [done|]. lia.
    + split; [done|]. intros r c. rewrite length_app. cbn [length].
      destruct (decide (c = length K)) as [->|Hc].
      * destruct (decide (r < length C)) as [Hr|Hr].
        -- rewrite H1 by done. rewrite decide_True by lia.
           by rewrite list_lookup_total_middle.
        -- rewrite item_out_of_rows; [|done|].
           ++ rewrite decide_False; [done|]. lia.
           ++ rewrite shape_boundary_column, Hshape. simpl. lia.
      * rewrite H2, Hitems by done.
        destruct (decide (c < length K)) as [Hlt|Hge].
        -- destruct (decide (r < length C)) as [Hr|Hr].
           ++ rewrite !decide_True by lia. by rewrite lookup_total_app_l.
           ++ rewrite !decide_False; [done|lia|lia].
        -- rewrite !decide_False; [done|lia|lia].
Qed.

(** *** The simplices of a dimension *)

Lemma elem_of_ksimplices (X : list (list Z)) (k : Z)
    (Y : option (list (list Z))) (x : list Z) :
  x ∈ ksimplices X k Y ↔
  (∃ t, t ∈ X ∧ x `sublist_of` t ∧ length x = Z.to_nat (k + 1)) ∧
  match Y with Some rel => x ∉ rel | None => True end.
Proof.
  assert (x ∈ mjoin (map (λ toplex, combinations toplex (Z.to_nat (k + 1))) X) ↔
          ∃ t, t ∈ X ∧ x `sublist_of` t ∧ length x = Z.to_nat (k + 1)) as Hc.
  { rewrite list_elem_of_join. split.
    - intros (ts & Hx & Hts). apply list_elem_of_fmap in Hts as (t & -> & Ht).
      apply elem_of_combinations in Hx. eauto.
    - intros (t & Ht & Hx). exists (combinations t (Z.to_nat (k + 1))).
      split; [by apply elem_of_combinations|].
      apply list_elem_of_fmap. eauto. }
  unfold ksimplices. rewrite set_iter_elem. destruct Y as [rel|].
  - rewrite list_elem_of_filter, set_iter_elem, Hc. tauto.
  - rewrite Hc. tauto.
Qed.

Lemma NoDup_ksimplices (X : list (list Z)) (k : Z)
    (Y : option (list (list Z))) :
  NoDup (ksimplices X k Y).
Proof. apply set_iter_NoDup. Qed.

Lemma ksimplices_simplex (X : list (list Z)) (k : Z)
    (Y : option (list (list Z))) :
  (0 ≤ k)%Z → Forall NoDup X →
  Forall (λ splx, NoDup splx ∧ length splx = S (Z.to_nat k)) (ksimplices X k Y).
Proof.
  intros Hk HX. apply Forall_forall. intros x Hx.
  apply elem_of_ksimplices in Hx as [(t & Ht & Hs & Hlen) _]. split.
  - apply (sublist_NoDup x t); [|done]. by apply (proj1 (Forall_forall _ _) HX).
  - lia.
Qed.

(** *** What [boundary] returns for a dimension [k >= 1] *)

Lemma boundary_eq (X : list (list Z)) (k : Z) (Y : option (list (list Z))) :
  (1 ≤ k)%Z →
  boundary X k Y None =
  if decide (ksimplices X k Y = [] ∨ ksimplices X (k - 1) Y = [])
  then (zeros 0 (length (ksimplices X k Y)), None)
  else (foldl (boundary_column
                 (dict (zip (ksimplices X (k - 1) Y)
                            (seq 0 (length (ksimplices X (k - 1) Y))))) k)
              (zeros (length (ksimplices X (k - 1) Y))
                     (length (ksimplices X k Y)))
              (enumerate (ksimplices X k Y)),
        Some (ksimplices X k Y)).
Proof.
  intros Hk. unfold boundary.
  rewrite (bool_decide_eq_false_2 (k ≤ 0)%Z) by lia.
  rewrite orb_false_l.
  destruct (decide (ksimplices X k Y = [])) as [H1|H1].
  - rewrite (bool_decide_eq_true_2 _ H1). rewrite decide_True by tauto. done.
  - rewrite (bool_decide_eq_false_2 _ H1).
    destruct (decide (ksimplices X (k - 1) Y = [])) as [H2|H2].
    + rewrite (bool_decide_eq_true_2 _ H2). rewrite decide_True by tauto. done.
    + rewrite (bool_decide_eq_false_2 _ H2). rewrite decide_False by tauto. done.
Qed.

(** [simplicialHomology] hands the k-chain of the first call to the
    second: the second call returns what it returns on its own. *)
Lemma boundary_handover (X : list (list Z)) (k : Z)
    (Y : option (list (list Z))) :
  boundary X (k + 1) Y (boundary X k Y None).2 = boundary X (k + 1) Y None.
Proof.
  unfold boundary at 2. case_match; [done|]. simpl.
  unfold boundary. by replace (k + 1 - 1)%Z with k by lia.
Qed.

(** *** Rows and columns as lists of items *)

Lemma row_items (A : ndarray) (r : nat) (row : list Z) :
  well_formed A → data A !! r = Some row →
  row = map (item A r) (seq 0 (shape A).2).
Proof.
  intros [_ Hcols] Hrow.
  assert (length row = (shape A).2) as Hlen.
  { eapply (proj1 (Forall_forall _ _) Hcols), list_elem_of_lookup_2, Hrow. }
  apply list_eq. intros j. rewrite list_lookup_fmap. unfold item. rewrite Hrow.
  destruct (decide (j < (shape A).2)) as [Hj|Hj].
  - rewrite lookup_seq_lt by done. simpl.
    destruct (row !! j) as [z|] eqn:E; [done|].
    apply lookup_ge_None in E. lia.
  - rewrite lookup_seq_ge by lia. simpl. apply lookup_ge_None. lia.
Qed.

Lemma column_items (A : ndarray) (c : nat) :
  well_formed A →
  column A c = map (λ j, item A j c) (seq 0 (shape A).1).
Proof.
  intros [Hrows _]. apply list_eq. intros j. unfold column, item.
  rewrite !list_lookup_fmap.
  destruct (decide (j < (shape A).1)) as [Hj|Hj].
  - rewrite lookup_seq_lt by done. simpl.
    destruct (data A !! j) as [row|] eqn:E; [done|].
    apply lookup_ge_None in E. lia.
  - rewrite lookup_seq_ge by lia.
    rewrite (proj2 (lookup_ge_None _ _)) by lia. done.
Qed.

Lemma map_lookup_total_seq {A B} `{!Inhabited A} (F : A → B) (l : list A) :
  map (λ j, F (l !!! j)) (seq 0 (length l)) = map F l.
Proof.
  apply list_eq. intros i. rewrite !list_lookup_fmap.
  destruct (decide (i < length l)) as [Hi|Hi].
  - rewrite lookup_seq_lt by done. simpl.
    by rewrite (list_lookup_lookup_total_lt l i Hi).
  - rewrite lookup_seq_ge by lia.
    rewrite (proj2 (lookup_ge_None l i)) by lia. done.
Qed.

Lemma zip_with_map_same {A B C D} (f : B → C → D) (g : A → B) (h : A → C)
    (l : list A) :
  zip_with f (map g l) (map h l) = map (λ x, f (g x) (h x)) l.
Proof. induction l as [|a l IH]; simpl; [done|]. by f_equal. Qed.

Lemma map_ext_seq {B} (f g : nat → B) (n : nat) :
  (∀ j, j < n → f j = g j) → map f (seq 0 n) = map g (seq 0 n).
Proof.
  intros H. apply list_eq. intros i. rewrite !list_lookup_fmap.
  destruct (decide (i < n)) as [Hi|Hi].
  - rewrite lookup_seq_lt by done. simpl. by rewrite H.
  - by rewrite lookup_seq_ge by lia.
Qed.

(** *** The product of two consecutive boundary matrices *)

Lemma regroup (G : list Z → Z) (K : list (list Z)) (F : list (Z * list Z)) :
  NoDup K →
  sum_list
    (map (λ t, G t * sum_list
                  (map (λ sf, sf.1 * (if decide (sf.2 = t) then 1 else 0)) F))
         K)%Z =
  sum_list (map (λ sf, sf.1 * (if decide (sf.2 ∈ K) then G sf.2 else 0)) F)%Z.
Proof.
  intros HK. induction F as [|sf F IH].
  - simpl. apply sum_list_zero. intros t _. lia.
  - rewrite map_cons, sum_list_cons, <- IH.
    rewrite <- (sum_list_indicator G sf.2 K HK), <- sum_list_scale, <- sum_list_plus.
    apply sum_list_ext. intros t _. rewrite map_cons, sum_list_cons. lia.
Qed.

Lemma composition_zero (X : list (list Z)) (k : Z)
    (Y : option (list (list Z))) (rho splx : list Z) :
  (1 ≤ k)%Z → face_closed Y →
  rho ∈ ksimplices X (k - 1) Y → splx ∈ ksimplices X (k + 1) Y →
  sum_list (map (λ t, coef rho t * coef t splx)%Z (ksimplices X k Y)) = 0%Z.
Proof.
  intros Hk HY Hrho Hsplx. unfold coef at 2. unfold bsum.
  rewrite regroup by apply NoDup_ksimplices.
  transitivity (bsum (coef rho) splx); [|apply bsum_bsum].
  apply sum_list_ext. intros sf Hsf. f_equal.
  case_decide as Hin; [done|]. symmetry. apply coef_miss.
  intros sf' Hsf' Heq. apply Hin.
  apply elem_of_faces in Hsf as (b & Hb & Hfb).
  apply elem_of_faces in Hsf' as (a & Ha & Hfa).
  apply elem_of_ksimplices in Hsplx as [(t & Ht & Hsub & Hlen) _].
  apply elem_of_ksimplices in Hrho as [_ HrhoY].
  assert (length sf.2 = Z.to_nat (k + 1)) as Hlenf.
  { rewrite Hfb, length_delete by (by apply lookup_lt_is_Some). lia. }
  apply elem_of_ksimplices. split.
  - exists t. split; [done|]. split; [|done].
    rewrite Hfb. etrans; [apply sublist_delete|done].
  - destruct Y as [rel|]; [|done]. intros HfY.
    apply HrhoY. rewrite <- Heq, Hfa. apply HY; [done|done|lia].
Qed.

Lemma vdot_boundary (X : list (list Z)) (k : Z) (Y : option (list (list Z)))
    (B1 B2 : ndarray) (r c : nat) (row : list Z) :
  well_formed B1 → well_formed B2 →
  shape B1 = (length (ksimplices X (k - 1) Y), length (ksimplices X k Y)) →
  (shape B2).1 = length (ksimplices X k Y) →
  (∀ r j, item B1 r j =
          if decide (r < length (ksimplices X (k - 1) Y)
                     ∧ j < length (ksimplices X k Y))
          then coef (ksimplices X (k - 1) Y !!! r) (ksimplices X k Y !!! j)
          else 0%Z) →
  (∀ j c, item B2 j c =
          if decide (j < length (ksimplices X k Y)
                     ∧ c < length (ksimplices X (k + 1) Y))
          then coef (ksimplices X k Y !!! j) (ksimplices X (k + 1) Y !!! c)
          else 0%Z) →
  data B1 !! r = Some row →
  c < length (ksimplices X (k + 1) Y) →
  vdot row (column B2 c) =
  sum_list (map (λ t, coef (ksimplices X (k - 1) Y !!! r) t
                      * coef t (ksimplices X (k + 1) Y !!! c))%Z
                (ksimplices X k Y)).
Proof.
  intros HB1 HB2 Hs1 Hs2 H1 H2 Hrow Hc.
  assert (r < length (ksimplices X (k - 1) Y)) as Hr.
  { apply lookup_lt_Some in Hrow. destruct HB1 as [Hrows _].
    rewrite Hrows, Hs1 in Hrow. done. }
  rewrite (row_items B1 r row HB1 Hrow), (column_items B2 c HB2).
  rewrite Hs1, Hs2. simpl. unfold vdot. rewrite zip_with_map_same.
  rewrite <- (map_lookup_total_seq
                (λ t, coef (ksimplices X (k - 1) Y !!! r) t
                      * coef t (ksimplices X (k + 1) Y !!! c))%Z).
  f_equal. apply map_ext_seq. intros j Hj.
  rewrite H1, H2. by rewrite !decide_True by done.
Qed.

Lemma map_const_replicate {A B} (F : A → B) (z : B) (l : list A) :
  (∀ x, x ∈ l → F x = z) → map F l = replicate (length l) z.
Proof.
  induction l as [|a l IH]; intros H; simpl; [done|].
  rewrite H by apply list_elem_of_here. f_equal. apply IH.
  intros x Hx. apply H. by apply list_elem_of_further.
Qed.

Lemma map_seq_replicate {B} (F : nat → B) (z : B) (n : nat) :
  (∀ c, c < n → F c = z) → map F (seq 0 n) = replicate n z.
Proof.
  intros H. pose proof (map_const_replicate F z (seq 0 n)) as H'.
  rewrite length_seq in H'. apply H'.
  intros c Hc%elem_of_seq. apply H. lia.
Qed.

Lemma boundary_items (X : list (list Z)) (k : Z) (Y : option (list (list Z))) :
  (1 ≤ k)%Z → Forall NoDup X →
  let B := foldl (boundary_column
                    (dict (zip (ksimplices X (k - 1) Y)
                               (seq 0 (length (ksimplices X (k - 1) Y))))) k)
                 (zeros (length (ksimplices X (k - 1) Y))
                        (length (ksimplices X k Y)))
                 (enumerate (ksimplices X k Y)) in
  well_formed B ∧
  shape B = (length (ksimplices X (k - 1) Y), length (ksimplices X k Y)) ∧
  ∀ r c, item B r c =
         if decide (r < length (ksimplices X (k - 1) Y)
                    ∧ c < length (ksimplices X k Y))
         then coef (ksimplices X (k - 1) Y !!! r) (ksimplices X k Y !!! c)
         else 0%Z.
Proof using set_iter_NoDup set_iter_elem.
  clear matrix_rank.
  intros Hk HX B.
  destruct (boundary_columns_spec (ksimplices X (k - 1) Y) (ksimplices X k Y)
              k (length (ksimplices X k Y))) as [HB Hitems].
  - lia.
  - apply NoDup_ksimplices.
  - apply ksimplices_simplex; [lia|done].
  - done.
  - split; [done|]. split; [|done]. subst B. by rewrite shape_boundary_columns.
Qed.

(** C3, amended: for every complex [X] whose simplices list distinct
    vertices, every dimension [k >= 1] and every relative subcomplex [Y]
    (none included), the product of [boundary(X, k, Y)] with
    [boundary(X, k+1, Y)] is the zero matrix whenever it is defined; it
    is undefined exactly when the k-chain is non-empty and the
    (k+1)-chain is empty, where [boundary(X, k+1, Y)] is 0 by 0.  The
    second matrix is the one that [simplicialHomology] builds. *)
Theorem boundary_composition (X : list (list Z)) (k : Z)
    (Y : option (list (list Z))) :
  (1 ≤ k)%Z → Forall NoDup X → face_closed Y →
  let dk := (boundary X k Y None).1 in
  let dkp1 := (boundary X (k + 1) Y None).1 in
  dot dk dkp1 =
    (if decide (ksimplices X k Y ≠ [] ∧ ksimplices X (k + 1) Y = [])
     then None
     else Some (zeros (shape dk).1 (length (ksimplices X (k + 1) Y)))) ∧
  boundary X (k + 1) Y (boundary X k Y None).2 = boundary X (k + 1) Y None.
Proof using set_iter_NoDup set_iter_elem.
  clear matrix_rank.
  intros Hk HX HY dk dkp1. split; [|apply boundary_handover].
  assert ((shape dk).2 = length (ksimplices X k Y)) as Hcols
    by apply boundary_ncols.
  assert (length (ksimplices X (k + 1) Y) = 0 ↔ ksimplices X (k + 1) Y = [])
    as Hnil2 by apply length_zero_iff_nil.
  assert (length (ksimplices X k Y) = 0 ↔ ksimplices X k Y = [])
    as Hnil1 by apply length_zero_iff_nil.
  subst dkp1. rewrite (boundary_eq X (k + 1) Y) by lia.
  replace (k + 1 - 1)%Z with k by lia.
  destruct (decide (ksimplices X (k + 1) Y = [] ∨ ksimplices X k Y = []))
    as [Hdeg|Hdeg]; cbn [fst].
  - (* the second matrix has no row *)
    unfold dot. cbn [shape zeros fst snd]. rewrite Hcols.
    destruct (decide (ksimplices X k Y = [])) as [H1|H1].
    + rewrite decide_True by tauto. rewrite decide_False by tauto.
      subst dk. rewrite boundary_eq by lia. rewrite decide_True by tauto.
      done.
    + rewrite decide_False by tauto. rewrite decide_True by tauto. done.
  - (* both chains are non-empty *)
    rewrite decide_False by tauto.
    destruct (boundary_items X (k + 1) Y) as (HB2 & Hs2 & Hi2); [lia|done|].
    assert (k + 1 - 1 = k)%Z as Ek by lia. rewrite Ek in HB2, Hs2, Hi2.
    unfold dot. rewrite Hs2, Hcols. cbn [fst snd].
    rewrite decide_True by done. f_equal. unfold zeros. f_equal.
    subst dk. rewrite boundary_eq by lia.
    destruct (decide (ksimplices X k Y = [] ∨ ksimplices X (k - 1) Y = []))
      as [Hdeg1|Hdeg1]; cbn [fst]; [done|].
    destruct (boundary_items X k Y) as (HB1 & Hs1 & Hi1); [done|done|].
    set (B1 := foldl (boundary_column _ k) _ _) in HB1, Hs1, Hi1 |- *.
    set (B2 := foldl (boundary_column _ (k + 1)) _ _) in HB2, Hs2, Hi2 |- *.
    assert (length (data B1) = (shape B1).1) as Hrows1 by apply HB1.
    rewrite <- Hrows1. apply map_const_replicate. intros row Hrow.
    apply map_seq_replicate. intros c Hc.
    apply list_elem_of_lookup in Hrow as [r Hr].
    rewrite (vdot_boundary X k Y B1 B2 r c row HB1 HB2 Hs1); try done.
    + apply composition_zero; [done|done| |].
      * apply list_elem_of_lookup_total_2.
        apply lookup_lt_Some in Hr. rewrite Hrows1, Hs1 in Hr. done.
      * by apply list_elem_of_lookup_total_2.
    + by rewrite Hs2.
Qed.

(** * Further properties of topology.py *)

(** ** closure *)

Lemma closure_value (xs ys : list (list Z)) :
  pset_value xs = pset_value ys → closure xs = closure ys.
Proof.
  intros H. apply set_eq. intros s. rewrite !elem_of_closure.
  split; intros (x & Hx & Hs).
  - assert (pset x ∈ pset_value ys) as Hy
      by (rewrite <- H; apply elem_of_pset_value; eauto).
    apply elem_of_pset_value in Hy as (y & Hy & Heq).
    exists y. split; [done|]. by rewrite <- Heq.
  - assert (pset x ∈ pset_value xs) as Hy
      by (rewrite H; apply elem_of_pset_value; eauto).
    apply elem_of_pset_value in Hy as (y & Hy & Heq).
    exists y. split; [done|]. by rewrite <- Heq.
Qed.

(** [closure] reads its argument as a set: two cell sets that are equal as
    sets of simplices, however they are iterated, have the same closure. *)
Theorem closure_depends_on_set_value (xs ys : list (list Z)) :
  pset_value xs = pset_value ys → closure xs = closure ys.
Proof. apply closure_value. Qed.

(** The closure contains the cell set and is closed under subsets (the
    empty one included): it is a simplicial complex. *)
Theorem closure_downward_closed (xs : list (list Z)) :
  pset_value xs ⊆ closure xs ∧
  ∀ s s', s ∈ closure xs → s' ⊆ s → s' ∈ closure xs.
Proof.
  split.
  - intros s (x & Hx & ->)%elem_of_pset_value.
    apply elem_of_closure. by exists x.
  - intros s s' (x & Hx & Hs)%elem_of_closure Hs'.
    apply elem_of_closure. exists x. split; [done|]. by transitivity s.
Qed.

(** The closure of a union of cell sets is the union of the closures: a
    territory that is a union of closed cell regions is closed. *)
Theorem closure_union (xs ys : list (list Z)) :
  closure (xs ++ ys) = closure xs ∪ closure ys.
Proof.
  apply set_eq. intros s. rewrite elem_of_union, !elem_of_closure. split.
  - intros (x & Hx & Hs). apply elem_of_app in Hx as [Hx|Hx]; eauto.
  - intros [(x & Hx & Hs)|(x & Hx & Hs)]; exists x;
      (split; [apply elem_of_app; tauto | done]).
Qed.

(** ** Edges of a cycle and of an open path *)

Lemma take_from_until {A} (it : iterator A) (f : nat → A) (i m n : nat) :
  (∀ j, i ≤ j < i + m → it j = Some (f j)) → it (i + m) = None → m ≤ n →
  take_from it i n = map f (seq i m).
Proof.
  revert i n. induction m as [|m IH]; intros i n Hit Hend Hn.
  - rewrite Nat.add_0_r in Hend. destruct n; simpl; [done|]. by rewrite Hend.
  - destruct n as [|n]; [lia|]. simpl. rewrite Hit by lia. f_equal.
    apply IH; [|by replace (S i + m) with (i + S m) by lia|lia].
    intros j Hj. apply Hit. lia.
Qed.

Lemma windows_of_path (c : list Z) :
  consume (length c) (sliding_window2 (iter c)) =
  map (λ i, (c !!! i, c !!! S i)) (seq 0 (length c - 1)).
Proof.
  destruct (decide (c = [])) as [->|Hc]; [done|].
  assert (0 < length c) as Hlen by (destruct c; [done|simpl; lia]).
  apply take_from_until; [| |lia].
  - intros j Hj. unfold sliding_window2, iter.
    rewrite !(list_lookup_lookup_total_lt c) by lia. done.
  - unfold sliding_window2, iter. simpl.
    rewrite (proj2 (lookup_ge_None c (S (length c - 1)))) by lia.
    by destruct (c !! (length c - 1)).
Qed.

Lemma elem_of_outer_edges (c : list Z) (e : gset Z) :
  e ∈ outer_edges_from_cycle c ↔
  ∃ i, S i < length c ∧ e = {[c !!! i; c !!! S i]}.
Proof.
  unfold outer_edges_from_cycle.
  rewrite windows_of_path, elem_of_list_to_set, list_elem_of_fmap. split.
  - intros (w & -> & Hw). apply list_elem_of_fmap in Hw as (i & -> & Hi%elem_of_seq).
    exists i. rewrite pset_pair_eq. split; [lia | done].
  - intros (i & Hi & ->). exists (c !!! i, c !!! S i).
    rewrite pset_pair_eq. split; [done|].
    apply list_elem_of_fmap. exists i. split; [done|]. apply elem_of_seq. lia.
Qed.

Lemma elem_of_edges_from_cycle (c : list Z) (e : gset Z) :
  e ∈ edges_from_cycle c ↔
  ∃ i, i < length c ∧ e = {[c !!! i; c !!! (S i mod length c)]}.
Proof.
  unfold edges_from_cycle.
  rewrite windows_of_cycle, elem_of_list_to_set, list_elem_of_fmap. split.
  - intros (w & -> & Hw). apply list_elem_of_fmap in Hw as (i & -> & Hi%elem_of_seq).
    exists i. unfold window. rewrite (Nat.mod_small i) by lia.
    rewrite pset_pair_eq. split; [lia | done].
  - intros (i & Hi & ->). exists (window c i). split.
    + unfold window. rewrite (Nat.mod_small i) by lia. by rewrite pset_pair_eq.
    + apply list_elem_of_fmap. exists i. split; [done|]. apply elem_of_seq. lia.
Qed.

Lemma lookup_total_inj (c : list Z) (p q : nat) :
  NoDup c → p < length c → q < length c → c !!! p = c !!! q → p = q.
Proof.
  intros Hnd Hp Hq Hpq. eapply NoDup_lookup; [done| |].
  - by apply list_lookup_lookup_total_lt.
  - rewrite Hpq. by apply list_lookup_lookup_total_lt.
Qed.

Lemma path_edge_inj (c : list Z) (i j : nat) :
  NoDup c → S i < length c → S j < length c →
  ({[c !!! i; c !!! S i]} : gset Z) = {[c !!! j; c !!! S j]} → i = j.
Proof.
  intros Hnd Hi Hj Heq.
  apply pair_eq_inv in Heq as [[H1|H1] [H2|H2]];
    apply lookup_total_inj in H1; try apply lookup_total_inj in H2;
    (done || lia).
Qed.

(** [outer_edges_from_cycle] returns the pairs of neighbours of an open
    path, with no wrap-around pair: [n - 1] edges for [n] distinct
    vertices, none for fewer than two vertices. *)
Theorem outer_edges_from_cycle_spec (c : list Z) :
  (∀ e, e ∈ outer_edges_from_cycle c ↔
        ∃ i a b, c !! i = Some a ∧ c !! S i = Some b ∧ e = {[a; b]}) ∧
  (NoDup c → base.size (outer_edges_from_cycle c) = length c - 1).
Proof.
  split.
  - intros e. rewrite elem_of_outer_edges. split.
    + intros (i & Hi & ->). exists i, (c !!! i), (c !!! S i).
      split; [apply list_lookup_lookup_total_lt; lia|].
      split; [by apply list_lookup_lookup_total_lt | done].
    + intros (i & a & b & Ha & Hb & ->). exists i.
      split; [by eapply lookup_lt_Some|].
      apply list_lookup_total_correct in Ha, Hb. by rewrite Ha, Hb.
  - intros Hnd. unfold outer_edges_from_cycle. rewrite windows_of_path.
    rewrite size_list_to_set; [by rewrite !length_map, length_seq|].
    rewrite <- list_fmap_compose.
    apply NoDup_fmap_2_strong; [|apply NoDup_seq].
    intros i j Hi%elem_of_seq Hj%elem_of_seq. simpl. rewrite !pset_pair_eq.
    apply path_edge_inj; (done || lia).
Qed.

(** The edges of a cycle are the edges of the open path through it and
    the wrap-around edge from the last vertex to the first. *)
Theorem edges_from_cycle_wrap (c : list Z) :
  edges_from_cycle c =
  outer_edges_from_cycle c ∪
  (if decide (c = []) then ∅
   else {[ {[c !!! (length c - 1); c !!! 0]} ]}).
Proof.
  apply set_eq. intros e.
  rewrite elem_of_union, elem_of_edges_from_cycle, elem_of_outer_edges.
  destruct (decide (c = [])) as [->|Hc].
  - rewrite elem_of_empty. simpl. split.
    + intros (i & Hi & _). lia.
    + intros [(i & Hi & _)|[]]. lia.
  - assert (0 < length c) as Hlen by (destruct c; [done|simpl; lia]).
    rewrite elem_of_singleton. split.
    + intros (i & Hi & ->). rewrite succ_mod by done. case_decide as Hw.
      * right. by replace (length c - 1) with i by lia.
      * left. exists i. split; [lia|done].
    + intros [(i & Hi & ->)| ->].
      * exists i. split; [lia|]. rewrite succ_mod by lia.
        by rewrite decide_False by lia.
      * exists (length c - 1). split; [lia|]. rewrite succ_mod by lia.
        by rewrite decide_True by lia.
Qed.

(** ** The fan triangulation of a cell *)

Lemma elem_of_face_from_cycle (c : list Z) (f : gset Z) :
  f ∈ face_from_cycle c ↔
  ∃ i, 1 ≤ i ∧ S i < length c ∧ f = {[c !!! i; c !!! S i]} ∪ {[c !!! 0]}.
Proof.
  unfold face_from_cycle. rewrite elem_of_map. split.
  - intros (e & -> & (i & Hi & ->)%elem_of_outer_edges).
    rewrite length_drop in Hi. exists (S i).
    rewrite !lookup_total_drop. simpl. split; [lia|]. split; [lia|done].
  - intros (i & Hi1 & Hi & ->). destruct i as [|i]; [lia|].
    exists {[c !!! S i; c !!! S (S i)]}. split; [done|].
    apply elem_of_outer_edges. exists i. rewrite length_drop.
    rewrite !lookup_total_drop. simpl. split; [lia|done].
Qed.

Lemma triangle_inj (c : list Z) (i j : nat) :
  NoDup c → 1 ≤ i → S i < length c → 1 ≤ j → S j < length c →
  ({[c !!! i; c !!! S i]} ∪ {[c !!! 0]} : gset Z) =
  {[c !!! j; c !!! S j]} ∪ {[c !!! 0]} → i = j.
Proof.
  intros Hnd Hi1 Hi Hj1 Hj Heq.
  assert (c !!! i ∈ ({[c !!! j; c !!! S j]} ∪ {[c !!! 0]} : gset Z)) as H1.
  { rewrite <- Heq. apply elem_of_union_l, elem_of_union_l.
    by apply elem_of_singleton. }
  assert (c !!! j ∈ ({[c !!! i; c !!! S i]} ∪ {[c !!! 0]} : gset Z)) as H2.
  { rewrite Heq. apply elem_of_union_l, elem_of_union_l.
    by apply elem_of_singleton. }
  rewrite !elem_of_union, !elem_of_singleton in H1, H2.
  destruct H1 as [[H1|H1]|H1], H2 as [[H2|H2]|H2];
    apply lookup_total_inj in H1; try apply lookup_total_inj in H2;
    (done || lia).
Qed.

(** [face_from_cycle] fans a cell from its first vertex: its members are
    the triangles [{c[0], c[i], c[i+1]}] for [1 <= i < n - 1]; a cycle of
    fewer than three vertices (the empty one included) gives no face and
    no error; [n] distinct vertices give [n - 2] triangles. *)
Theorem face_from_cycle_spec (c : list Z) :
  (∀ f, f ∈ face_from_cycle c ↔
        ∃ i v0 a b, 1 ≤ i ∧ c !! 0 = Some v0 ∧ c !! i = Some a ∧
                    c !! S i = Some b ∧ f = {[a; b]} ∪ {[v0]}) ∧
  (length c < 3 → face_from_cycle c = ∅) ∧
  (NoDup c → base.size (face_from_cycle c) = length c - 2).
Proof.
  split; [|split].
  - intros f. rewrite elem_of_face_from_cycle. split.
    + intros (i & Hi1 & Hi & ->).
      exists i, (c !!! 0), (c !!! i), (c !!! S i). split; [done|].
      split; [apply list_lookup_lookup_total_lt; lia|].
      split; [apply list_lookup_lookup_total_lt; lia|].
      split; [by apply list_lookup_lookup_total_lt | done].
    + intros (i & v0 & a & b & Hi1 & H0 & Ha & Hb & ->). exists i.
      split; [done|]. split; [by eapply lookup_lt_Some|].
      apply list_lookup_total_correct in H0, Ha, Hb. by rewrite H0, Ha, Hb.
  - intros Hlen. apply set_eq. intros f.
    rewrite elem_of_face_from_cycle, elem_of_empty. split; [|done].
    intros (i & Hi1 & Hi & _). lia.
  - intros Hnd.
    assert (face_from_cycle c =
            list_to_set (map (λ i, {[c !!! i; c !!! S i]} ∪ {[c !!! 0]})
                             (seq 1 (length c - 2)))) as ->.
    { apply set_eq. intros f.
      rewrite elem_of_face_from_cycle, elem_of_list_to_set, list_elem_of_fmap.
      split.
      - intros (i & Hi1 & Hi & ->). exists i. split; [done|].
        apply elem_of_seq. lia.
      - intros (i & -> & Hi%elem_of_seq). exists i.
        split; [lia|]. split; [lia|done]. }
    rewrite size_list_to_set; [by rewrite length_map, length_seq|].
    apply NoDup_fmap_2_strong; [|apply NoDup_seq].
    intros i j Hi%elem_of_seq Hj%elem_of_seq.
    apply triangle_inj; (done || lia).
Qed.

Lemma pair_subseteq (a b : Z) (T : gset Z) :
  a ∈ T → b ∈ T → ({[a; b]} : gset Z) ⊆ T.
Proof.
  intros Ha Hb v. rewrite elem_of_union, !elem_of_singleton.
  by intros [->| ->].
Qed.

(** The closed region of a claimed cell contains the cell's boundary:
    every edge of the cycle, the wrap-around one included, is a simplex
    of [closure(face_from_cycle(c))] when the cell has at least three
    vertices. *)
Theorem cell_region_contains_boundary (c : list Z) (fs : list (list Z)) :
  3 ≤ length c → pset_value fs = face_from_cycle c →
  edges_from_cycle c ⊆ closure fs.
Proof.
  intros Hlen Hfs e (i & Hi & ->)%elem_of_edges_from_cycle.
  remember (S i mod length c) as m eqn:Em. rewrite succ_mod in Em by done.
  assert (∀ j, 1 ≤ j → S j < length c →
               ({[c !!! i; c !!! m]} : gset Z)
               ⊆ {[c !!! j; c !!! S j]} ∪ {[c !!! 0]} →
               ({[c !!! i; c !!! m]} : gset Z) ∈ closure fs)
    as Hface.
  { intros j Hj1 Hj Hsub.
    assert (({[c !!! j; c !!! S j]} ∪ {[c !!! 0]} : gset Z) ∈ pset_value fs)
      as Hin.
    { rewrite Hfs. apply elem_of_face_from_cycle. by exists j. }
    apply elem_of_pset_value in Hin as (x & Hx & Heq).
    apply elem_of_closure. exists x. split; [done|]. by rewrite <- Heq. }
  case_decide as Hw; subst m.
  - apply (Hface (length c - 2)); [lia|lia|].
    apply pair_subseteq; rewrite !elem_of_union, !elem_of_singleton.
    + left. right. f_equal. lia.
    + by right.
  - destruct i as [|i].
    + apply (Hface 1); [lia|lia|].
      apply pair_subseteq; rewrite !elem_of_union, !elem_of_singleton; tauto.
    + apply (Hface (S i)); [lia|lia|].
      apply pair_subseteq; rewrite !elem_of_union, !elem_of_singleton; tauto.
Qed.

(** ** Vertices of an edge set *)

Lemma elem_of_verts_from_edges (xs : list (list Z)) (s : gset Z) :
  s ∈ verts_from_edges xs ↔ ∃ v e, e ∈ pset_value xs ∧ v ∈ e ∧ s = {[v]}.
Proof.
  unfold verts_from_edges.
  rewrite elem_of_list_to_set, list_elem_of_fmap. split.
  - intros (v & -> & (x & Hv & Hx)%list_elem_of_join).
    exists v, (pset x). split; [apply elem_of_pset_value; eauto|].
    split; [|done]. unfold pset. by apply elem_of_list_to_set.
  - intros (v & e & (x & Hx & ->)%elem_of_pset_value & Hv & ->).
    exists v. split; [done|]. apply list_elem_of_join. exists x.
    split; [|done]. unfold pset in Hv. by apply elem_of_list_to_set in Hv.
Qed.

(** The vertex set derived from the edges of a set of cycles, however the
    edge set is iterated, consists of the singletons of the vertices of
    the cycles. *)
Theorem verts_from_edges_of_cycles (cs es : list (list Z)) :
  pset_value es = edges_from_cycles cs →
  ∀ s, s ∈ verts_from_edges es ↔ ∃ c v, c ∈ cs ∧ v ∈ c ∧ s = {[v]}.
Proof.
  intros Hes s. rewrite elem_of_verts_from_edges. split.
  - intros (v & e & He & Hv & ->). rewrite Hes in He.
    unfold edges_from_cycles in He.
    apply elem_of_union_list in He as (E & HE & He).
    apply list_elem_of_fmap in HE as (c & -> & Hc).
    apply elem_of_edges_from_cycle in He as (i & Hi & ->).
    assert (S i mod length c < length c) as Hm
      by (apply Nat.mod_upper_bound; lia).
    exists c, v. split; [done|]. split; [|done].
    rewrite elem_of_union, !elem_of_singleton in Hv.
    destruct Hv as [-> | ->]; by apply list_elem_of_lookup_total_2.
  - intros (c & v & Hc & Hv & ->).
    apply list_elem_of_lookup in Hv as [i Hi].
    pose proof (lookup_lt_Some _ _ _ Hi) as Hlt.
    exists v, {[c !!! i; c !!! (S i mod length c)]}. split; [|split; [|done]].
    + rewrite Hes. unfold edges_from_cycles. apply elem_of_union_list.
      exists (edges_from_cycle c). split; [apply list_elem_of_fmap; eauto|].
      apply elem_of_edges_from_cycle. by exists i.
    + apply list_lookup_total_correct in Hi. rewrite Hi.
      apply elem_of_union_l. by apply elem_of_singleton.
Qed.

(** * Further properties of simplicialHomology.py *)

(** ** The simplices of a dimension *)

(** [ksimplices] lists, without repetition, exactly the tuples of [k + 1]
    entries that are subsequences of some toplex and are not in
    [relative]. *)
Theorem ksimplices_spec (X : list (list Z)) (k : Z)
    (Y : option (list (list Z))) :
  (-1 ≤ k)%Z →
  NoDup (ksimplices X k Y) ∧
  ∀ x, x ∈ ksimplices X k Y ↔
       (∃ t, t ∈ X ∧ x `sublist_of` t ∧ length x = Z.to_nat (k + 1)) ∧
       match Y with Some rel => x ∉ rel | None => True end.
Proof using set_iter_NoDup set_iter_elem.
  clear matrix_rank.
  intros _. split; [apply NoDup_ksimplices|]. apply elem_of_ksimplices.
Qed.

(** ** The entries of a boundary matrix *)

(** For [k >= 1] and non-empty chains, [boundary] returns the k-chain and
    a matrix with one row per (k-1)-simplex and one column per k-simplex,
    whose entry at a row [rho] and a column [splx] is [(-1)^i] when [rho]
    is [splx] without its [i]-th vertex, and 0 when [rho] is no face of
    [splx]. *)
Theorem boundary_entries (X : list (list Z)) (k : Z)
    (Y : option (list (list Z))) :
  (1 ≤ k)%Z → Forall NoDup X →
  ksimplices X k Y ≠ [] → ksimplices X (k - 1) Y ≠ [] →
  let B := (boundary X k Y None).1 in
  (boundary X k Y None).2 = Some (ksimplices X k Y) ∧
  well_formed B ∧
  shape B = (length (ksimplices X (k - 1) Y), length (ksimplices X k Y)) ∧
  ∀ r c rho splx,
    ksimplices X (k - 1) Y !! r = Some rho →
    ksimplices X k Y !! c = Some splx →
    (∀ i, i < length splx → delete i splx = rho → item B r c = sign i) ∧
    ((∀ i, i < length splx → delete i splx ≠ rho) → item B r c = 0%Z).
Proof using set_iter_NoDup set_iter_elem.
  clear matrix_rank.
  intros Hk HX H1 H0 B. subst B. rewrite boundary_eq by done.
  rewrite decide_False by tauto. cbn [fst snd].
  destruct (boundary_items X k Y) as (HB & Hs & Hi); [done|done|].
  split; [done|]. split; [done|]. split; [done|].
  intros r c rho splx Hr Hc. rewrite Hi.
  rewrite decide_True
    by (split; [by eapply lookup_lt_Some | by eapply lookup_lt_Some]).
  apply list_lookup_total_correct in Hr as Hr', Hc as Hc'. rewrite Hr', Hc'.
  assert (NoDup splx) as Hnd.
  { assert (splx ∈ ksimplices X k Y) as Hin
      by (by eapply list_elem_of_lookup_2).
    pose proof (ksimplices_simplex X k Y) as HF.
    apply (proj1 (Forall_forall _ _) (HF ltac:(lia) HX)) in Hin. tauto. }
  split.
  - intros i Hlt <-. apply coef_hit; [done|].
    rewrite faces_seq. apply list_elem_of_fmap. exists i.
    split; [done|]. apply elem_of_seq. lia.
  - intros Hno. apply coef_miss. intros sf Hsf Heq.
    apply elem_of_faces in Hsf as (i & Hlt & Hf).
    apply (Hno i Hlt). by rewrite <- Hf.
Qed.

(** ** Degree 0 *)

(** [betti(0, X, Y)] is the number of vertices left after the exclusion of
    [Y], minus the numerical rank of [D_1]: [D_0] is the empty array of
    the early return and its rank is never computed. *)
Theorem betti_zero (X : list (list Z)) (Y : option (list (list Z))) :
  let X' := map sorted (integerVertices X Y).1 in
  let Y' := map sorted (integerVertices X Y).2 in
  betti 0 X Y =
  (Z.of_nat (length (ksimplices X' 0 (Some Y')))
   - numerical_rank (boundary X' 1 (Some Y') None).1)%Z.
Proof.
  intros X' Y'.
  assert (betti 0 X Y = simplicialHomology 0 X Y) as -> by (by destruct Y).
  unfold simplicialHomology. fold X' Y'.
  destruct (integerVertices X Y) as [X0 Y0] eqn:E. simpl in X', Y'.
  fold X' Y'.
  assert (boundary X' 0 (Some Y') None
          = (zeros 0 (length (ksimplices X' 0 (Some Y'))), None)) as ->.
  { unfold boundary. by rewrite (bool_decide_eq_true_2 (0 ≤ 0)%Z). }
  change (0 + 1)%Z with 1%Z.
  destruct (boundary X' 1 (Some Y') None) as [d2 c2] eqn:E2. simpl.
  rewrite homologyRankOnly_eq. unfold numerical_rank at 1. simpl. lia.
Qed.

(** ** Renumbering of the vertices *)

Lemma dict_zip_map_lookup `{Countable K} {V} (C : list K) (g : nat → V)
    (s : nat) (d0 : gmap K V) (f : K) (r : V) :
  NoDup C → (∀ x, x ∈ C → d0 !! x = None) →
  foldl (λ d kv, <[kv.1 := kv.2]> d) d0 (zip C (map g (seq s (length C))))
    !! f = Some r ↔
  d0 !! f = Some r ∨ ∃ i, C !! i = Some f ∧ r = g (s + i).
Proof using Type.
  clear matrix_rank.
  intros HC. revert s d0. induction HC as [|x C Hx HC IH]; intros s d0 Hd0.
  - simpl. split; [by left|]. intros [Hf|(i & Hf & _)]; [done|].
    by rewrite lookup_nil in Hf.
  - cbn [length seq map zip zip_with foldl]. simpl. rewrite IH.
    + split.
      * intros [Hf|(i & Hi & ->)].
        -- destruct (decide (x = f)) as [->|Hne].
           ++ rewrite lookup_insert_eq in Hf. injection Hf as <-.
              right. exists 0. split; [done|]. by rewrite Nat.add_0_r.
           ++ rewrite lookup_insert_ne in Hf by done. by left.
        -- right. exists (S i). split; [done|]. f_equal. lia.
      * intros [Hf|(i & Hi & ->)].
        -- left. rewrite lookup_insert_ne; [done|]. intros ->.
           rewrite Hd0 in Hf by apply list_elem_of_here. done.
        -- destruct i as [|i]; simpl in Hi.
           ++ injection Hi as ->. left. rewrite lookup_insert_eq.
              by rewrite Nat.add_0_r.
           ++ right. exists i. split; [done|]. f_equal. lia.
    + intros y Hy. rewrite lookup_insert_ne.
      * apply Hd0. by apply list_elem_of_further.
      * intros ->. done.
Qed.

Lemma integerVertices_eq (X : list (list Z)) (Y : option (list (list Z))) :
  let verts := mjoin (X ++ default [] Y) in
  let n := Z.of_nat (base.size (list_to_set verts : gset Z)) in
  ∃ ren : Z → Z,
    integerVertices X Y = (map (map ren) X, map (map ren) (default [] Y)) ∧
    (∀ v, v ∈ verts → 0 ≤ ren v < n)%Z ∧
    (∀ v w, v ∈ verts → w ∈ verts → ren v = ren w → v = w) ∧
    (∀ m, (0 ≤ m < n)%Z → ∃ v, v ∈ verts ∧ ren v = m).
Proof using set_iter_vertices_NoDup set_iter_vertices_elem.
  clear matrix_rank.
  intros verts n.
  set (vs := set_iter_vertices verts).
  set (d := dict (zip vs (map Z.of_nat (seq 0 (length vs)))) : gmap Z Z).
  assert (n = Z.of_nat (length vs)) as Hn.
  { assert ((list_to_set verts : gset Z) = list_to_set vs) as Hset.
    { apply set_eq. intros v. rewrite !elem_of_list_to_set.
      symmetry. apply set_iter_vertices_elem. }
    subst n. rewrite Hset.
    by rewrite size_list_to_set by apply set_iter_vertices_NoDup. }
  assert (∀ v r, d !! v = Some r ↔ ∃ i, vs !! i = Some v ∧ r = Z.of_nat i)
    as Hd.
  { intros v r. unfold d, dict.
    rewrite dict_zip_map_lookup;
      [|apply set_iter_vertices_NoDup|intros; apply lookup_empty].
    rewrite lookup_empty. split.
    - intros [Hf|(i & Hi & ->)]; [done|]. by exists i.
    - intros (i & Hi & ->). right. by exists i. }
  assert (∀ v, v ∈ verts → ∃ i, vs !! i = Some v ∧ d !!! v = Z.of_nat i)
    as Hren.
  { intros v Hv. apply set_iter_vertices_elem in Hv. fold vs in Hv.
    apply list_elem_of_lookup in Hv as [i Hi]. exists i. split; [done|].
    apply lookup_total_correct. apply Hd. by exists i. }
  exists (λ v, d !!! v). split; [done|]. split; [|split].
  - intros v (i & Hi & ->)%Hren. apply lookup_lt_Some in Hi. lia.
  - intros v w (i & Hi & Hv)%Hren (j & Hj & Hw)%Hren Heq.
    rewrite Hv, Hw in Heq. assert (i = j) as -> by lia. congruence.
  - intros m Hm. destruct (vs !! Z.to_nat m) as [v|] eqn:E.
    + exists v. split.
      * apply set_iter_vertices_elem. fold vs. by eapply list_elem_of_lookup_2.
      * apply lookup_total_correct, Hd. exists (Z.to_nat m). split; [done|lia].
    + apply lookup_ge_None in E. lia.
Qed.

(** [integerVertices] renames the vertices of both complexes by one map
    that sends the [n] distinct vertices one-to-one onto [0 .. n - 1], and
    changes nothing else: the simplices keep their order and the order of
    their entries; a missing second complex is the empty one. *)
Theorem integerVertices_renumbering (X : list (list Z))
    (Y : option (list (list Z))) :
  let verts := mjoin (X ++ default [] Y) in
  let n := Z.of_nat (base.size (list_to_set verts : gset Z)) in
  ∃ ren : Z → Z,
    integerVertices X Y = (map (map ren) X, map (map ren) (default [] Y)) ∧
    (∀ v, v ∈ verts → 0 ≤ ren v < n)%Z ∧
    (∀ v w, v ∈ verts → w ∈ verts → ren v = ren w → v = w) ∧
    (∀ m, (0 ≤ m < n)%Z → ∃ v, v ∈ verts ∧ ren v = m).
Proof using set_iter_vertices_NoDup set_iter_vertices_elem.
  clear matrix_rank. apply integerVertices_eq.
Qed.

(** ** Canonical tuples *)

Lemma sublist_StronglySorted (l k : list Z) :
  l `sublist_of` k → StronglySorted Z.le k → StronglySorted Z.le l.
Proof using Type.
  clear matrix_rank.
  induction 1 as [|x l k Hs IH|x l k Hs IH]; intros Hk.
  - constructor.
  - apply StronglySorted_inv in Hk as [Hk Hx]. constructor; [by apply IH|].
    apply Forall_forall. intros y Hy.
    apply (proj1 (Forall_forall _ _) Hx). by eapply sublist_subseteq.
  - apply StronglySorted_inv in Hk as [Hk _]. by apply IH.
Qed.

Lemma sorted_spec (t : list Z) :
  StronglySorted Z.le (sorted t) ∧ sorted t ≡ₚ t.
Proof using Type.
  clear matrix_rank.
  split; [apply StronglySorted_merge_sort; apply _|apply merge_sort_Permutation].
Qed.

Lemma canonical_simplices (X : list (list Z)) (Y : option (list (list Z))) :
  Forall NoDup X →
  Forall (λ t, StronglySorted Z.le t ∧ NoDup t)
         (map sorted (integerVertices X Y).1).
Proof using set_iter_vertices_NoDup set_iter_vertices_elem.
  clear matrix_rank.
  intros HX.
  destruct (integerVertices_eq X Y) as (ren & -> & _ & Hinj & _).
  cbn [fst]. apply Forall_forall. intros t' Ht'.
  apply list_elem_of_fmap in Ht' as (t1 & -> & Ht1).
  apply list_elem_of_fmap in Ht1 as (t & -> & Ht).
  destruct (sorted_spec (map ren t)) as [Hs Hp]. split; [done|].
  rewrite Hp. apply NoDup_fmap_2_strong.
  - intros v w Hv Hw. apply Hinj; apply list_elem_of_join; exists t;
      (split; [done|]); apply elem_of_app; by left.
  - by apply (proj1 (Forall_forall _ _) HX).
Qed.

(** In [simplicialHomology], where the vertices of each simplex are
    renumbered and sorted, a simplex of the chain is determined by its
    vertex set: two k-simplices with the same vertices are the same
    tuple, so the set of tuples removes duplicates by vertex set. *)
Theorem ksimplices_canonical (X : list (list Z)) (Y : option (list (list Z)))
    (k : Z) (x y : list Z) :
  (-1 ≤ k)%Z → Forall NoDup X →
  let X' := map sorted (integerVertices X Y).1 in
  let Y' := map sorted (integerVertices X Y).2 in
  x ∈ ksimplices X' k (Some Y') → y ∈ ksimplices X' k (Some Y') →
  pset x = pset y → x = y.
Proof using set_iter_NoDup set_iter_elem set_iter_vertices_NoDup
            set_iter_vertices_elem.
  clear matrix_rank.
  intros _ HX X' Y' Hx Hy Heq.
  pose proof (canonical_simplices X Y HX) as HX'. fold X' in HX'.
  assert (∀ z, z ∈ ksimplices X' k (Some Y') →
               StronglySorted Z.le z ∧ NoDup z) as Hz.
  { intros z [(t & Ht & Hsub & _) _]%elem_of_ksimplices.
    apply (proj1 (Forall_forall _ _) HX') in Ht as [Hs Hnd]. split.
    - by eapply sublist_StronglySorted.
    - by eapply sublist_NoDup. }
  destruct (Hz x Hx) as [Hsx Hnx], (Hz y Hy) as [Hsy Hny].
  apply (StronglySorted_unique Z.le); [done|done|].
  apply NoDup_Permutation; [done|done|]. intros v.
  unfold pset in Heq. by rewrite <- !(elem_of_list_to_set (C:=gset Z)), Heq.
Qed.

(** ** The empty simplex *)

Lemma join_insert_nil {A} (l1 l2 : list (list A)) :
  mjoin (l1 ++ [] :: l2) = mjoin (l1 ++ l2).
Proof using Type. clear matrix_rank. by rewrite !join_app. Qed.

Lemma ksimplices_insert_nil_toplex (A B : list (list Z)) (j : Z)
    (rel : option (list (list Z))) :
  (0 ≤ j)%Z → ksimplices (A ++ [] :: B) j rel = ksimplices (A ++ B) j rel.
Proof using Type.
  clear matrix_rank.
  intros Hj. unfold ksimplices.
  replace (Z.to_nat (j + 1)) with (S (Z.to_nat j)) by lia.
  rewrite !map_app, !join_app. by rewrite map_cons.
Qed.

Lemma filter_ext_elem {A} (P Q : A → Prop) `{∀ x, Decision (P x)}
    `{∀ x, Decision (Q x)} (l : list A) :
  (∀ x, x ∈ l → P x ↔ Q x) → filter P l = filter Q l.
Proof using Type.
  clear matrix_rank.
  induction l as [|a l IH]; intros HPQ; [done|].
  rewrite !filter_cons. rewrite IH
    by (intros x Hx; apply HPQ; by apply list_elem_of_further).
  pose proof (HPQ a (list_elem_of_here _ _)) as Ha.
  destruct (decide (P a)), (decide (Q a)); tauto.
Qed.

Lemma ksimplices_insert_nil_relative (X C D : list (list Z)) (j : Z) :
  (0 ≤ j)%Z →
  ksimplices X j (Some (C ++ [] :: D)) = ksimplices X j (Some (C ++ D)).
Proof using set_iter_elem.
  clear matrix_rank.
  intros Hj. unfold ksimplices. f_equal. apply filter_ext_elem.
  intros x Hx. apply (proj1 (set_iter_elem _ _)) in Hx.
  apply list_elem_of_join in Hx as (ts & Hx & Hts).
  apply list_elem_of_fmap in Hts as (t & -> & _).
  apply elem_of_combinations in Hx as [_ Hlen].
  assert (x ≠ []) as Hne by (intros ->; simpl in Hlen; lia).
  rewrite !elem_of_app, elem_of_cons. split; intros Hn Hin; apply Hn; tauto.
Qed.

Lemma boundary_chains_eq (X X' : list (list Z))
    (Y Y' km1 : option (list (list Z))) (k : Z) :
  (0 ≤ k)%Z →
  (∀ j, (0 ≤ j)%Z → ksimplices X j Y = ksimplices X' j Y') →
  boundary X k Y km1 = boundary X' k Y' km1.
Proof using Type.
  clear matrix_rank.
  intros Hk Heq. unfold boundary. rewrite (Heq k) by done.
  destruct (decide (k ≤ 0)%Z) as [H0|H0].
  - by rewrite (bool_decide_eq_true_2 _ H0).
  - by rewrite (Heq (k - 1)%Z) by lia.
Qed.

Lemma integerVertices_insert_nil_l (X1 X2 : list (list Z))
    (Y : option (list (list Z))) :
  (integerVertices (X1 ++ [] :: X2) Y).2 = (integerVertices (X1 ++ X2) Y).2 ∧
  ∃ A B, (integerVertices (X1 ++ X2) Y).1 = A ++ B ∧
         (integerVertices (X1 ++ [] :: X2) Y).1 = A ++ [] :: B.
Proof using Type.
  clear matrix_rank.
  unfold integerVertices. cbn [fst snd].
  assert (mjoin ((X1 ++ [] :: X2) ++ default [] Y)
          = mjoin ((X1 ++ X2) ++ default [] Y)) as ->.
  { rewrite <- !app_assoc. rewrite <- app_comm_cons. apply join_insert_nil. }
  split; [done|]. eexists _, _. rewrite !map_app, map_cons. split; done.
Qed.

Lemma integerVertices_insert_nil_r (X Y1 Y2 : list (list Z)) :
  (integerVertices X (Some (Y1 ++ [] :: Y2))).1
  = (integerVertices X (Some (Y1 ++ Y2))).1 ∧
  ∃ C D, (integerVertices X (Some (Y1 ++ Y2))).2 = C ++ D ∧
         (integerVertices X (Some (Y1 ++ [] :: Y2))).2 = C ++ [] :: D.
Proof using Type.
  clear matrix_rank.
  unfold integerVertices. cbn [fst snd default]. unfold id.
  assert (mjoin (X ++ Y1 ++ [] :: Y2) = mjoin (X ++ Y1 ++ Y2)) as ->.
  { rewrite !app_assoc. apply join_insert_nil. }
  split; [done|]. eexists _, _. rewrite !map_app, map_cons. split; done.
Qed.

Lemma betti_eq (k : Z) (X : list (list Z)) (Y : option (list (list Z))) :
  betti k X Y = simplicialHomology k X Y.
Proof. by destruct Y. Qed.

Lemma rank_only_congruence (X X' Y Y' : list (list Z)) (k : Z) :
  (∀ j km1, (0 ≤ j)%Z →
            boundary X j (Some Y) km1 = boundary X' j (Some Y') km1) →
  (0 ≤ k)%Z →
  (let '(dk, km1chain) := boundary X k (Some Y) None in
   let '(dkp1, _) := boundary X (k + 1) (Some Y) km1chain in
   homologyRankOnly dk dkp1) =
  (let '(dk, km1chain) := boundary X' k (Some Y') None in
   let '(dkp1, _) := boundary X' (k + 1) (Some Y') km1chain in
   homologyRankOnly dk dkp1).
Proof.
  intros Hb Hk. rewrite (Hb k None Hk).
  destruct (boundary X' k (Some Y') None) as [dk km1].
  by rewrite (Hb (k + 1)%Z km1) by lia.
Qed.

(** The empty simplex that topology.py's [closure] puts in a complex has
    no effect on a Betti number: for [k >= 0], [betti] returns the same
    value with the empty simplex inserted anywhere in the complex, and
    anywhere in the subspace. *)
Theorem betti_ignores_empty_simplex (k : Z) (X1 X2 : list (list Z)) :
  (0 ≤ k)%Z →
  (∀ Y, betti k (X1 ++ [] :: X2) Y = betti k (X1 ++ X2) Y) ∧
  (∀ X Y1 Y2, betti k X (Some (Y1 ++ [] :: Y2)) = betti k X (Some (Y1 ++ Y2))).
Proof using set_iter_elem.
  intros Hk. split.
  - intros Y. rewrite !betti_eq. unfold simplicialHomology.
    destruct (integerVertices_insert_nil_l X1 X2 Y) as (HY & A & B & H1 & H2).
    destruct (integerVertices (X1 ++ X2) Y) as [P Q].
    destruct (integerVertices (X1 ++ [] :: X2) Y) as [P' Q'].
    cbn [fst snd] in HY, H1, H2. subst P P' Q'.
    rewrite !map_app, map_cons. change (sorted []) with (@nil Z).
    apply rank_only_congruence; [|done].
    intros j km1 Hj. apply boundary_chains_eq; [done|].
    intros i Hi. by apply ksimplices_insert_nil_toplex.
  - intros X Y1 Y2. rewrite !betti_eq. unfold simplicialHomology.
    destruct (integerVertices_insert_nil_r X Y1 Y2) as (HX & C & D & H1 & H2).
    destruct (integerVertices X (Some (Y1 ++ Y2))) as [P Q].
    destruct (integerVertices X (Some (Y1 ++ [] :: Y2))) as [P' Q'].
    cbn [fst snd] in HX, H1, H2. subst P' Q Q'.
    rewrite !map_app, map_cons. change (sorted []) with (@nil Z).
    apply rank_only_congruence; [|done].
    intros j km1 Hj. apply boundary_chains_eq; [done|].
    intros i Hi. by apply ksimplices_insert_nil_relative.
Qed.

(** ** A complex relative to a subspace that holds it *)

Lemma ksimplices_excluded (X Y : list (list Z)) (j : Z) :
  (0 ≤ j)%Z → Forall NoDup X → Forall NoDup Y →
  (∀ t s, t ∈ X → s ⊆ pset t → s ≠ ∅ → s ∈ pset_value Y) →
  let X' := map sorted (integerVertices X (Some Y)).1 in
  let Y' := map sorted (integerVertices X (Some Y)).2 in
  ksimplices X' j (Some Y') = [].
Proof using set_iter_elem set_iter_vertices_NoDup set_iter_vertices_elem.
  clear matrix_rank.
  intros Hj HX HY Hsub.
  destruct (integerVertices_eq X (Some Y)) as (ren & -> & _ & Hinj & _).
  cbn [fst snd default]. unfold id.
  set (X' := map sorted (map (map ren) X)).
  set (Y' := map sorted (map (map ren) Y)).
  destruct (ksimplices X' j (Some Y')) as [|x l] eqn:E; [done|]. exfalso.
  assert (x ∈ ksimplices X' j (Some Y')) as Hx
    by (rewrite E; apply list_elem_of_here).
  apply elem_of_ksimplices in Hx as [(t' & Ht' & Hxt & Hlen) Hout].
  apply Hout. clear Hout E l.
  apply list_elem_of_fmap in Ht' as (t1 & -> & Ht1).
  apply list_elem_of_fmap in Ht1 as (t & -> & Ht).
  assert (∀ u, u ∈ X ++ Y → NoDup u ∧ ∀ v w, v ∈ u → w ∈ u →
                                              ren v = ren w → v = w)
    as Hu.
  { intros u Hin. split.
    - apply elem_of_app in Hin as [Hin|Hin].
      + by apply (proj1 (Forall_forall _ _) HX).
      + by apply (proj1 (Forall_forall _ _) HY).
    - intros v w Hv Hw. apply Hinj; apply list_elem_of_join; by exists u. }
  assert (∀ u, u ∈ X ++ Y →
               StronglySorted Z.le (sorted (map ren u)) ∧
               NoDup (sorted (map ren u)) ∧
               ∀ w, w ∈ sorted (map ren u) ↔ ∃ v, v ∈ u ∧ w = ren v) as Hs.
  { intros u Hin. destruct (Hu u Hin) as [Hnd Hi].
    destruct (sorted_spec (map ren u)) as [Hso Hp].
    split; [done|]. split.
    - rewrite Hp. by apply NoDup_fmap_2_strong.
    - intros w. rewrite Hp, list_elem_of_fmap. split.
      + intros (v & -> & Hv). by exists v.
      + intros (v & Hv & ->). by exists v. }
  destruct (Hs t) as (Hst & Hnt & Hmt); [apply elem_of_app; by left|].
  set (s := pset (filter (λ v, ren v ∈ x) t)).
  assert (s ∈ pset_value Y) as Hsy.
  { apply (Hsub t); [done| |].
    - intros v. unfold s, pset.
      rewrite !elem_of_list_to_set, list_elem_of_filter. tauto.
    - destruct x as [|w x]; [simpl in Hlen; lia|].
      assert (w ∈ sorted (map ren t)) as Hw
        by (eapply sublist_subseteq; [done|apply list_elem_of_here]).
      apply Hmt in Hw as (v & Hv & ->). intros Hempty.
      assert (v ∈ s) as Hvs.
      { unfold s, pset. apply elem_of_list_to_set, list_elem_of_filter.
        split; [apply list_elem_of_here|done]. }
      rewrite Hempty in Hvs. by apply elem_of_empty in Hvs. }
  apply elem_of_pset_value in Hsy as (u & Hu' & Hsu).
  destruct (Hs u) as (Hsu1 & Hnu & Hmu); [apply elem_of_app; by right|].
  assert (x = sorted (map ren u)) as ->.
  { apply (StronglySorted_unique Z.le).
    - by eapply sublist_StronglySorted.
    - done.
    - apply NoDup_Permutation;
        [apply (sublist_NoDup x (sorted (map ren t))); done|done|].
      intros w. rewrite Hmu.
      assert (∀ v, v ∈ u ↔ v ∈ t ∧ ren v ∈ x) as Hvu.
      { intros v. unfold pset in Hsu.
        rewrite <- (elem_of_list_to_set (C:=gset Z) v u), <- Hsu.
        unfold s, pset. by rewrite elem_of_list_to_set, list_elem_of_filter,
          (and_comm (ren v ∈ x)). }
      split.
      + intros Hw. assert (w ∈ sorted (map ren t)) as Hwt
          by (by eapply sublist_subseteq).
        apply Hmt in Hwt as (v & Hv & ->). exists v. split; [|done].
        by apply Hvu.
      + intros (v & Hv & ->). by apply Hvu in Hv as [_ Hv]. }
  apply list_elem_of_fmap. exists (map ren u). split; [done|].
  apply list_elem_of_fmap. by exists u.
Qed.

(** When the subspace holds every non-empty face of every simplex of the
    complex, as a territory that equals its base does, no chain is left
    after the exclusion and [betti] is 0 in every degree. *)
Theorem betti_relative_to_superset (k : Z) (X Y : list (list Z)) :
  (0 ≤ k)%Z → Forall NoDup X → Forall NoDup Y →
  (∀ t s, t ∈ X → s ⊆ pset t → s ≠ ∅ → s ∈ pset_value Y) →
  betti k X (Some Y) = 0%Z.
Proof using set_iter_elem set_iter_vertices_NoDup set_iter_vertices_elem.
  intros Hk HX HY Hsub.
  pose proof (λ j Hj, ksimplices_excluded X Y j Hj HX HY Hsub) as Hnil.
  unfold betti, lists_from_complex, simplicialHomology.
  destruct (integerVertices X (Some Y)) as [X0 Y0]. cbn [fst snd] in Hnil.
  assert (∀ j, (0 ≤ j)%Z →
               boundary (map sorted X0) j (Some (map sorted Y0)) None
               = (zeros 0 0, None)) as Hb.
  { intros j Hj. unfold boundary. rewrite (Hnil j Hj).
    rewrite (bool_decide_eq_true_2 ([] = [])) by done.
    by rewrite orb_true_r. }
  rewrite Hb by done. cbv beta iota. by rewrite Hb by lia.
Qed.

(** * The auxiliary routines of simplicialHomology.py *)

Lemma elem_of_sh_closure (toplexes : list (list Z)) (x : list Z) :
  x ∈ sh_closure toplexes ↔
  x ≠ [] ∧ ∃ t, t ∈ toplexes ∧ x `sublist_of` t.
Proof using set_iter_elem.
  clear matrix_rank.
  unfold sh_closure. rewrite set_iter_elem, list_elem_of_join. split.
  - intros (ts & Hx & Hts). apply list_elem_of_fmap in Hts as (t & -> & Ht).
    apply list_elem_of_join in Hx as (cs & Hx & Hcs).
    apply list_elem_of_fmap in Hcs as (r & -> & Hr).
    apply elem_of_combinations in Hx as [Hsub Hlen].
    apply elem_of_seq in Hr. split.
    + intros ->. simpl in Hlen. lia.
    + by exists t.
  - intros (Hne & t & Ht & Hsub).
    exists (mjoin (map (combinations t) (seq 1 (length t)))). split.
    + apply list_elem_of_join. exists (combinations t (length x)). split.
      * by apply elem_of_combinations.
      * apply list_elem_of_fmap. exists (length x). split; [done|].
        apply elem_of_seq. apply sublist_length in Hsub.
        destruct x; [done|]. simpl in *. lia.
    + apply list_elem_of_fmap. by exists t.
Qed.

(** The closure of simplicialHomology.py lists, without repetition,
    exactly the non-empty subsequences of the toplexes: unlike the closure
    of topology.py it never holds the empty simplex. *)
Theorem sh_closure_spec (toplexes : list (list Z)) :
  NoDup (sh_closure toplexes) ∧
  ([] ∉ sh_closure toplexes) ∧
  ∀ x, x ∈ sh_closure toplexes ↔
       x ≠ [] ∧ ∃ t, t ∈ toplexes ∧ x `sublist_of` t.
Proof using set_iter_NoDup set_iter_elem.
  clear matrix_rank.
  split; [apply set_iter_NoDup|]. split; [|apply elem_of_sh_closure].
  intros [Hne _]%elem_of_sh_closure. done.
Qed.

(** The two closures differ by the empty simplex only: a vertex set is in
    the closure of topology.py exactly when it is the vertex set of a
    simplex listed by the closure of simplicialHomology.py, or it is empty
    and there is a simplex at all. *)
Theorem closure_siblings (xs : list (list Z)) (s : gset Z) :
  s ∈ closure xs ↔
  s ∈ pset_value (sh_closure xs) ∨ (s = ∅ ∧ xs ≠ []).
Proof using set_iter_elem.
  clear matrix_rank.
  rewrite elem_of_closure, elem_of_pset_value. split.
  - intros (x & Hx & Hs). destruct (decide (s = ∅)) as [->|Hne].
    + right. split; [done|]. by destruct xs; [apply elem_of_nil in Hx|].
    + left. exists (filter (λ v, v ∈ s) x). split.
      * apply elem_of_sh_closure. split.
        -- intros Hnil. apply Hne. rewrite <- (pset_filter s x) by done.
           by rewrite Hnil.
        -- exists x. split; [done|]. apply sublist_filter.
      * symmetry. by apply pset_filter.
  - intros [(t & Ht & ->)|[-> Hne]].
    + apply elem_of_sh_closure in Ht as (_ & x & Hx & Hsub).
      exists x. split; [done|]. by apply pset_sublist.
    + destruct xs as [|x xs]; [done|]. exists x. split;
        [apply list_elem_of_here|]. intros v Hv. by apply elem_of_empty in Hv.
Qed.

(** ** Stars *)

Lemma simpcluded_spec (spx : list Z) (simplices : list (list Z)) :
  simpcluded spx simplices = true ↔ spx ∈ simplices.
Proof using Type.
  clear matrix_rank.
  induction simplices as [|s rest IH]; simpl.
  - split; [done|]. by intros ?%elem_of_nil.
  - rewrite elem_of_cons. case_bool_decide as E.
    + split; [by left|done].
    + rewrite IH. split; [by right|]. intros [->|?]; done.
Qed.

Lemma sstar_inner (A B : list (list Z)) :
  let A' := foldl (λ A b, if simpcluded b A then A else A ++ [b]) A B in
  (∃ added, A' = A ++ added) ∧
  (∀ x, x ∈ A' ↔ x ∈ A ∨ x ∈ B) ∧
  (NoDup A → NoDup A').
Proof using Type.
  clear matrix_rank.
  revert A. induction B as [|b B IH]; intros A; simpl.
  - split; [exists []; by rewrite app_nil_r|]. split; [|done].
    intros x. split; [by left|]. intros [?|?%elem_of_nil]; done.
  - destruct (simpcluded b A) eqn:E.
    + apply simpcluded_spec in E. destruct (IH A) as ((added & Ha) & Hm & Hn).
      split; [by exists added|]. split; [|done].
      intros x. rewrite Hm, elem_of_cons. split; [tauto|].
      intros [?|[->|?]]; tauto.
    + assert (b ∉ A) as Hb.
      { intros Hb%simpcluded_spec. congruence. }
      destruct (IH (A ++ [b])) as ((added & Ha) & Hm & Hn).
      split; [exists (b :: added); by rewrite Ha, <- app_assoc|].
      split.
      * intros x. rewrite Hm, elem_of_app, list_elem_of_singleton,
          elem_of_cons. tauto.
      * intros HA. apply Hn. apply NoDup_app. split; [done|].
        split; [|apply NoDup_singleton].
        intros y Hy ->%list_elem_of_singleton. done.
Qed.

Lemma sstar_outer (asc A C : list (list Z)) :
  let A' := foldl (λ A simplex,
                     foldl (λ A b, if simpcluded b A then A else A ++ [b])
                           A (star asc simplex)) A C in
  (∃ added, A' = A ++ added) ∧
  (∀ x, x ∈ A' ↔ x ∈ A ∨ ∃ s, s ∈ C ∧ x ∈ star asc s) ∧
  (NoDup A → NoDup A').
Proof using Type.
  clear matrix_rank.
  revert A. induction C as [|s C IH]; intros A; simpl.
  - split; [exists []; by rewrite app_nil_r|]. split; [|done].
    intros x. split; [by left|]. intros [?|(s & ?%elem_of_nil & _)]; done.
  - destruct (sstar_inner A (star asc s)) as ((a1 & Ha1) & Hm1 & Hn1).
    simpl in Ha1, Hm1, Hn1.
    destruct (IH (foldl (λ A b, if simpcluded b A then A else A ++ [b])
                        A (star asc s))) as ((a2 & Ha2) & Hm2 & Hn2).
    simpl in Ha2, Hm2, Hn2. split; [|split].
    + exists (a1 ++ a2). by rewrite Ha2, Ha1, <- app_assoc.
    + intros x. rewrite Hm2, Hm1. split.
      * intros [[?|?]|(s' & Hs' & Hx)]; [by left| |].
        -- right. exists s. split; [apply list_elem_of_here|done].
        -- right. exists s'. split; [by apply list_elem_of_further|done].
      * intros [?|(s' & Hs' & Hx)]; [by left; left|].
        apply elem_of_cons in Hs' as [->|Hs']; [by left; right|].
        right. by exists s'.
    + intros HA. by apply Hn2, Hn1.
Qed.

(** [sstar] returns the given simplices, in their order, followed by the
    simplices of the generated complex that contain all vertices of one
    of them and were not listed yet; nothing is added twice. *)
Theorem sstar_spec (toplexes complx : list (list Z)) :
  (∃ added, sstar toplexes complx = complx ++ added) ∧
  (∀ x, x ∈ sstar toplexes complx ↔
        x ∈ complx ∨
        (x ≠ [] ∧ (∃ t, t ∈ toplexes ∧ x `sublist_of` t) ∧
         ∃ s, s ∈ complx ∧ pset s ⊆ pset x)) ∧
  (NoDup complx → NoDup (sstar toplexes complx)).
Proof using set_iter_elem.
  clear matrix_rank.
  destruct (sstar_outer (sh_closure toplexes) complx complx)
    as (Ha & Hm & Hn).
  split; [done|]. split; [|done].
  intros x. unfold sstar. simpl in Hm. rewrite Hm. split.
  - intros [?|(s & Hs & Hx)]; [by left|]. right.
    apply list_elem_of_filter in Hx as [Hsub Hx].
    apply elem_of_sh_closure in Hx as [Hne Ht].
    split; [done|]. split; [done|]. by exists s.
  - intros [?|(Hne & Ht & s & Hs & Hsub)]; [by left|]. right.
    exists s. split; [done|]. apply list_elem_of_filter. split; [done|].
    by apply elem_of_sh_closure.
Qed.

(** * The game *)

(** ** Whose turn it is *)

Lemma parity_step (n : nat) :
  (n mod 2 = 0 ∧ S n mod 2 = 1) ∨ (n mod 2 = 1 ∧ S n mod 2 = 0).
Proof using Type.
  clear matrix_rank.
  pose proof (Nat.div_mod_eq n 2). pose proof (Nat.div_mod_eq (S n) 2).
  pose proof (Nat.mod_upper_bound n 2). pose proof (Nat.mod_upper_bound (S n) 2).
  lia.
Qed.

(** Whatever the iteration order of the two-player set, the turns
    alternate: consecutive calls of [Game.player] return the two different
    players [RED] and [BLUE], never [NEUTRAL], and every second call
    returns the same player. *)
Theorem player_alternates (order : list Player) (n : nat) :
  order ≡ₚ [RED; BLUE] →
  ∃ p q, player order n = Some p ∧ player order (S n) = Some q ∧
         player order (S (S n)) = Some p ∧
         p ≠ q ∧ p ≠ NEUTRAL ∧ q ≠ NEUTRAL.
Proof using Type.
  clear matrix_rank.
  intros Hp.
  assert (order = [RED; BLUE] ∨ order = [BLUE; RED]) as Ho.
  { apply Permutation_sym, Permutation_length_2_inv in Hp.
    destruct Hp as [->| ->]; [by left|by right]. }
  unfold player, cycle.
  destruct (parity_step n) as [[H0 H1]|[H0 H1]],
           (parity_step (S n)) as [[H1' H2]|[H1' H2]]; try lia;
    destruct Ho as [-> | ->]; cbn [length]; rewrite H0, H1, H2; simpl;
    eexists _, _; repeat split; done.
Qed.

(** ** Claiming a cell *)

(** A claim changes the territory of one player only, blue for [BLUE] and
    red for every other value, [NEUTRAL] included; that territory gains
    exactly the subsets of the triangles of the cell, so it never shrinks,
    and a territory that is a complex stays one.  The board is kept. *)
Theorem add_cycle_to_player_complex_spec (self self' : Game) (p : Player)
    (c : list Z) :
  add_cycle_to_player_complex self p c self' →
  let gained s := ∃ f, f ∈ face_from_cycle c ∧ s ⊆ f in
  board self' = board self ∧
  (p = BLUE →
   red self' = red self ∧
   ∀ s, s ∈ pset_value (blue self') ↔
        s ∈ pset_value (blue self) ∨ gained s) ∧
  (p ≠ BLUE →
   blue self' = blue self ∧
   ∀ s, s ∈ pset_value (red self') ↔
        s ∈ pset_value (red self) ∨ gained s) ∧
  (is_complex (blue self) → is_complex (blue self')) ∧
  (is_complex (red self) → is_complex (red self')).
Proof using Type.
  clear matrix_rank.
  assert (∀ fs s, pset_value fs = face_from_cycle c →
            (s ∈ closure fs ↔ ∃ f, f ∈ face_from_cycle c ∧ s ⊆ f)) as Hcl.
  { intros fs s <-. rewrite elem_of_closure. split.
    - intros (x & Hx & Hs). exists (pset x). split; [|done].
      apply elem_of_pset_value. by exists x.
    - intros (f & (x & Hx & ->)%elem_of_pset_value & Hs). by exists x. }
  assert (∀ old new fs, pset_value fs = face_from_cycle c →
            pset_value new = pset_value old ∪ closure fs →
            is_complex old → is_complex new) as Hcx.
  { intros old new fs Hfs Hnew Hold s s'. rewrite !Hnew, !elem_of_union.
    intros [Hs|Hs] Hsub.
    - left. by eapply Hold.
    - right. apply (Hcl _ _ Hfs) in Hs as (f & Hf & Hs).
      apply (Hcl _ _ Hfs). exists f. split; [done|]. by etrans. }
  intros [fs blue' -> Hfs Hb|fs red' Hp Hfs Hr] gained; cbn [board blue red].
  - split; [done|]. split; [intros _; split; [done|]|split; [done|]].
    + intros s. by rewrite Hb, elem_of_union, (Hcl _ _ Hfs).
    + split; [by eapply Hcx|done].
  - split; [done|]. split; [done|]. split; [intros _; split; [done|]|].
    + intros s. by rewrite Hr, elem_of_union, (Hcl _ _ Hfs).
    + split; [done|by eapply Hcx].
Qed.

(** * Hop lengths *)

Lemma hop_loop_bounded (toplexes : list (list Z)) (m : Z) (fuel : nat)
    (st : hop_state) :
  (m - currentlen st ≤ Z.of_nat fuel)%Z →
  is_Some (hop_loop fuel toplexes (Some m) st).
Proof using Type.
  clear matrix_rank.
  revert st. induction fuel as [|fuel IH]; intros st Hm; simpl.
  - destruct (hop_guard (Some m) st) eqn:E; [|done].
    unfold hop_guard in E. apply andb_true_iff in E as [_ E].
    apply bool_decide_eq_true in E. lia.
  - destruct (hop_guard (Some m) st) eqn:E; [|done].
    apply IH. simpl. lia.
Qed.

(** With a bound [maxHoplength = m] the loop of [vertexHoplength] ends
    after at most [m - 1] passes, whatever the complex. *)
Theorem vertexHoplength_bounded (fuel : nat) (toplexes : list (list Z))
    (vertices : list Z) (m : Z) :
  (m - 1 ≤ Z.of_nat fuel)%Z →
  is_Some (vertexHoplength fuel toplexes vertices (Some m)).
Proof using Type.
  clear matrix_rank. intros Hm. by apply hop_loop_bounded.
Qed.

Lemma filter_none {A} (P : A → Prop) `{∀ x, Decision (P x)} (l : list A) :
  (∀ x, x ∈ l → ¬ P x) → filter P l = [].
Proof using Type.
  clear matrix_rank.
  induction l as [|x l IH]; intros Hl; [done|].
  rewrite filter_cons_False by (apply Hl, list_elem_of_here).
  apply IH. intros y Hy. by apply Hl, list_elem_of_further.
Qed.

Lemma filter_all {A} (P : A → Prop) `{∀ x, Decision (P x)} (l : list A) :
  (∀ x, x ∈ l → P x) → filter P l = l.
Proof using Type.
  clear matrix_rank.
  induction l as [|x l IH]; intros Hl; [done|].
  rewrite filter_cons_True by (apply Hl, list_elem_of_here).
  f_equal. apply IH. intros y Hy. by apply Hl, list_elem_of_further.
Qed.

Lemma hop_loop_stuck (toplexes : list (list Z)) (fuel : nat)
    (st : hop_state) :
  vertslist st ≠ [] →
  (∀ v, v ∈ vertslist st → v ∉ outsimplices st) →
  outsimplices st = touched toplexes (map fst (outlist st)) →
  hop_loop fuel toplexes None st = None.
Proof using Type.
  clear matrix_rank.
  revert st. induction fuel as [|fuel IH]; intros st Hne Hout Htouch; simpl.
  - unfold hop_guard. by rewrite bool_decide_eq_true_2.
  - unfold hop_guard. rewrite bool_decide_eq_true_2 by done. simpl.
    assert (filter (λ v, v ∈ outsimplices st) (vertslist st) = []) as Hnext.
    { apply filter_none. intros v Hv. by apply Hout. }
    assert (hop_body toplexes st
            = mk_hop (vertslist st) (outlist st) (outsimplices st)
                     (currentlen st + 1)) as ->.
    { unfold hop_body. rewrite Hnext. simpl. rewrite app_nil_r.
      rewrite <- Htouch. f_equal. apply filter_all.
      intros v _. apply not_elem_of_nil. }
    by apply IH.
Qed.

(** Without a bound, [vertexHoplength] never returns when some vertex
    lies outside [vertices] and no toplex joins [vertices] to the rest:
    each pass finds no new vertex and leaves the list of remaining
    vertices as it is. *)
Theorem vertexHoplength_unreachable (toplexes : list (list Z))
    (vertices : list Z) :
  (∃ s v, s ∈ toplexes ∧ v ∈ s ∧ v ∉ vertices) →
  (∀ s, s ∈ toplexes → (∃ v, v ∈ vertices ∧ v ∈ s) →
        ∀ w, w ∈ s → w ∈ vertices) →
  ∀ fuel, vertexHoplength fuel toplexes vertices None = None.
Proof using set_iter_vertices_elem.
  clear matrix_rank.
  intros (s & v & Hs & Hv & Hnv) Hclosed fuel. apply hop_loop_stuck; simpl.
  - intros Hnil.
    assert (v ∈ set_iter_vertices
                  (filter (λ v, v ∉ vertices) (mjoin toplexes))) as Hin.
    { apply set_iter_vertices_elem, list_elem_of_filter. split; [done|].
      apply list_elem_of_join. by exists s. }
    rewrite Hnil in Hin. by apply elem_of_nil in Hin.
  - intros w Hw Hout.
    apply (proj1 (set_iter_vertices_elem _ _)) in Hw.
    apply list_elem_of_filter in Hw as [Hw _]. apply Hw.
    unfold touched in Hout. apply list_elem_of_join in Hout as (t & Hwt & Ht).
    apply list_elem_of_filter in Ht as [Hmeet Ht].
    apply (Hclosed t Ht); [|done].
    destruct (filter (λ v, v ∈ t) vertices) as [|u us] eqn:E; [done|].
    assert (u ∈ filter (λ v, v ∈ t) vertices) as Hu
      by (rewrite E; apply list_elem_of_here).
    apply list_elem_of_filter in Hu as [Hu1 Hu2]. by exists u.
  - f_equal. rewrite <- list_fmap_compose.
    symmetry. apply list_fmap_id.
Qed.

(** * Toplexes *)

Lemma insert_by_len_perm (x : list Z) (l : list (list Z)) :
  insert_by_len x l ≡ₚ x :: l.
Proof using Type.
  clear matrix_rank.
  induction l as [|y l IH]; simpl; [done|].
  destruct (decide (length x < length y)); [|done].
  rewrite IH. apply perm_swap.
Qed.

Lemma sorted_by_len_perm (l : list (list Z)) : sorted_by_len l ≡ₚ l.
Proof using Type.
  clear matrix_rank.
  induction l as [|x l IH]; simpl; [done|].
  by rewrite insert_by_len_perm, IH.
Qed.

Lemma insert_by_len_sorted (x : list Z) (l : list (list Z)) :
  StronglySorted (λ a b, length b ≤ length a) l →
  StronglySorted (λ a b, length b ≤ length a) (insert_by_len x l).
Proof using Type.
  clear matrix_rank.
  induction l as [|y l IH]; intros Hl; simpl.
  - constructor; [constructor|constructor].
  - apply StronglySorted_inv in Hl as [Hl Hy].
    destruct (decide (length x < length y)) as [Hlt|Hge].
    + constructor; [by apply IH|].
      apply Forall_forall. intros z Hz.
      rewrite insert_by_len_perm in Hz. apply elem_of_cons in Hz as [->|Hz].
      * lia.
      * by apply (proj1 (Forall_forall _ _) Hy).
    + constructor; [by constructor|]. constructor; [lia|].
      apply Forall_forall. intros z Hz.
      apply (proj1 (Forall_forall _ _) Hy) in Hz. lia.
Qed.

Lemma sorted_by_len_sorted (l : list (list Z)) :
  StronglySorted (λ a b, length b ≤ length a) (sorted_by_len l).
Proof using Type.
  clear matrix_rank.
  induction l as [|x l IH]; simpl; [constructor|].
  by apply insert_by_len_sorted.
Qed.

Lemma sorted_lookup (l : list (list Z)) (i j : nat) (a b : list Z) :
  StronglySorted (λ a b, length b ≤ length a) l →
  i < j → l !! i = Some a → l !! j = Some b → length b ≤ length a.
Proof using Type.
  clear matrix_rank.
  intros Hl. revert i j. induction Hl as [|x l Hl IH Hx]; intros i j Hij Hi Hj.
  - by rewrite lookup_nil in Hi.
  - destruct j as [|j]; [lia|]. simpl in Hj. destruct i as [|i]; simpl in Hi.
    + injection Hi as ->.
      apply (proj1 (Forall_forall _ _) Hx). by eapply list_elem_of_lookup_2.
    + apply (IH i j); [lia|done|done].
Qed.

Lemma elem_of_enumerate {A} (l : list A) (i : nat) (x : A) :
  (i, x) ∈ enumerate l ↔ l !! i = Some x.
Proof using Type.
  clear matrix_rank.
  unfold enumerate. split.
  - intros (n & m & y & [= -> ->] & Hm & Hy)%elem_of_lookup_zip_with.
    apply lookup_seq in Hm as [-> _]. done.
  - intros Hi. apply elem_of_lookup_zip_with. exists i, i, x.
    split; [done|]. split; [|done].
    apply lookup_seq. split; [done|]. by eapply lookup_lt_Some.
Qed.

Lemma filter_nil_iff {A} (P : A → Prop) `{∀ x, Decision (P x)} (l : list A) :
  filter P l = [] ↔ ∀ x, x ∈ l → ¬ P x.
Proof using Type.
  clear matrix_rank.
  split.
  - intros Hnil x Hx HP.
    assert (x ∈ filter P l) as Hin by (by apply list_elem_of_filter).
    rewrite Hnil in Hin. by apply elem_of_nil in Hin.
  - intros Hl. destruct (filter P l) as [|y ys] eqn:E; [done|].
    assert (y ∈ filter P l) as Hy by (rewrite E; apply list_elem_of_here).
    apply list_elem_of_filter in Hy as [Hy1 Hy2]. by apply Hl in Hy2.
Qed.

Lemma elem_of_toplexify (X : list (list Z)) (x : list Z) :
  x ∈ toplexify X ↔
  ∃ i, sorted_by_len X !! i = Some x ∧
       ∀ j y, sorted_by_len X !! j = Some y → ¬ absorbs (i, x) (j, y).
Proof using Type.
  clear matrix_rank.
  unfold toplexify. rewrite list_elem_of_fmap. split.
  - intros ([i x'] & -> & Hin). apply list_elem_of_filter in Hin as [Hk Hin].
    apply elem_of_enumerate in Hin. exists i. split; [done|].
    intros j y Hj. apply (proj1 (filter_nil_iff _ _) Hk (j, y)).
    by apply elem_of_enumerate.
  - intros (i & Hi & Hk). exists (i, x). split; [done|].
    apply list_elem_of_filter. split; [|by apply elem_of_enumerate].
    apply filter_nil_iff. intros [j y] Hj. apply Hk.
    by apply elem_of_enumerate.
Qed.

Lemma length_strict_subset (x y : list Z) :
  NoDup x → pset x ⊆ pset y → pset x ≠ pset y → length x < length y.
Proof using Type.
  clear matrix_rank.
  intros Hx Hsub Hne.
  destruct (decide (Forall (λ v, v ∈ x) y)) as [Hall|Hex].
  - destruct Hne. apply set_eq. intros v. split; [apply Hsub|].
    unfold pset. rewrite !elem_of_list_to_set.
    apply (proj1 (Forall_forall _ _) Hall).
  - apply not_Forall_Exists in Hex; [|apply _].
    apply Exists_exists in Hex as (v & Hv & Hnv).
    assert (v :: x ⊆+ y) as Hm.
    { apply NoDup_submseteq; [by constructor|].
      intros w [->|Hw]%elem_of_cons; [done|].
      assert (w ∈ pset y) as Hwy
        by (apply Hsub; unfold pset; by apply elem_of_list_to_set).
      unfold pset in Hwy. by apply elem_of_list_to_set in Hwy. }
    apply submseteq_length in Hm. simpl in Hm. lia.
Qed.

(** When every simplex lists distinct vertices and no simplex is listed
    twice, [toplexify] keeps exactly the maximal simplices: those whose
    vertex set lies in the vertex set of no other entry. *)
Theorem toplexify_spec (X : list (list Z)) (x : list Z) :
  Forall NoDup X → NoDup X →
  x ∈ toplexify X ↔
  x ∈ X ∧ ∀ y, y ∈ X → pset x ⊆ pset y → y = x.
Proof using Type.
  clear matrix_rank.
  intros HX Hnd. pose proof (sorted_by_len_perm X) as Hp.
  pose proof (sorted_by_len_sorted X) as Hs.
  rewrite elem_of_toplexify. split.
  - intros (i & Hi & Hk).
    assert (x ∈ X) as Hx
      by (rewrite <- Hp; by eapply list_elem_of_lookup_2).
    split; [done|]. intros y Hy Hsub. rewrite <- Hp in Hy.
    apply list_elem_of_lookup in Hy as [j Hj].
    destruct (decide (i = j)) as [->|Hij]; [congruence|].
    destruct (decide (pset x = pset y)) as [Heq|Hne].
    + destruct (Hk j y Hj). unfold absorbs. simpl. tauto.
    + destruct (decide (j < i)) as [Hlt|Hge].
      * destruct (Hk j y Hj). unfold absorbs. simpl. tauto.
      * assert (length x < length y) as Hlen.
        { apply length_strict_subset; [|done|done].
          by apply (proj1 (Forall_forall _ _) HX). }
        pose proof (sorted_lookup _ i j x y Hs ltac:(lia) Hi Hj). lia.
  - intros [Hx Hmax]. rewrite <- Hp in Hx.
    apply list_elem_of_lookup in Hx as [i Hi]. exists i. split; [done|].
    intros j y Hj [[Hij Hsub] _]. simpl in Hij, Hsub.
    assert (y = x) as ->.
    { apply Hmax; [|done]. rewrite <- Hp. by eapply list_elem_of_lookup_2. }
    apply Hij. eapply NoDup_lookup; [|done|done]. by rewrite Hp.
Qed.

(** An entry whose vertex set is listed a second time, in the same or in
    another order, is dropped together with its copy: [toplexify] can
    lose a simplex. *)
Theorem toplexify_drops_repeated (X : list (list Z)) (i j : nat)
    (x y : list Z) :
  i ≠ j → X !! i = Some x → X !! j = Some y → pset x = pset y →
  (x ∉ toplexify X) ∧ (y ∉ toplexify X).
Proof using Type.
  clear matrix_rank.
  assert (∀ i j x y, i ≠ j → X !! i = Some x → X !! j = Some y →
            pset x = pset y → x ∉ toplexify X) as Hdrop.
  { clear i j x y. intros i j x y Hij Hi Hj Heq.
    pose proof (sorted_by_len_perm X) as Hp.
    apply Permutation_sym, Permutation_inj in Hp as (_ & f & Hf & Hl).
    rewrite Hl in Hi, Hj.
    intros (k & Hk & Hkeep)%elem_of_toplexify.
    destruct (decide (k = f i)) as [->|Hne].
    - destruct (Hkeep (f j) y Hj). unfold absorbs. simpl.
      split; [split|].
      + intros Hfij. by apply Hf in Hfij.
      + by rewrite Heq.
      + by right.
    - destruct (Hkeep (f i) x Hi). unfold absorbs. simpl.
      split; [split|]; [done|done|by right]. }
  intros Hij Hi Hj Heq. split.
  - by apply (Hdrop i j x y).
  - apply (Hdrop j i y x); [by apply not_eq_sym|done|done|done].
Qed.

End Engine.

(** * Evaluations at concrete inputs *)

Import Itertools Numpy Topology Eval.

Lemma py_set_elem (l : list (list Z)) (x : list Z) : x ∈ py_set l ↔ x ∈ l.
Proof. apply elem_of_remove_dups. Qed.

Lemma py_set_NoDup (l : list (list Z)) : NoDup (py_set l).
Proof. apply NoDup_remove_dups. Qed.

Lemma closure_idempotent_witness :
  closure [[]; [0%Z]] = closure [[0%Z]].
Proof.
  apply (closure_idempotent [[0%Z]] [[]; [0%Z]]).
  apply set_eq. intros s. rewrite elem_of_pset_value, elem_of_closure. split.
  - intros (x & Hx & ->). exists [0%Z]. split; [apply list_elem_of_here|].
    rewrite !elem_of_cons, elem_of_nil in Hx. destruct Hx as [->|[->|[]]]; [|done].
    apply empty_subseteq.
  - intros (x & ->%list_elem_of_singleton & Hs).
    exists (filter (λ v, v ∈ s) [0%Z]). split; [|by rewrite pset_filter].
    rewrite filter_cons, filter_nil. case_decide.
    + apply list_elem_of_further, list_elem_of_here.
    + apply list_elem_of_here.
Defined.

Lemma edges_from_cycle_spec_witness :
  base.size (edges_from_cycle [0; 1; 2]%Z) = 3 ∧
  ∀ e, e ∈ edges_from_cycle [0; 1; 2]%Z ↔
       ∃ i a b, i < 3 ∧ [0; 1; 2]%Z !! i = Some a ∧
                [0; 1; 2]%Z !! (S i mod 3) = Some b ∧ e = {[a; b]}.
Proof.
  apply (edges_from_cycle_spec [0; 1; 2]%Z).
  - by apply (bool_decide_unpack _).
  - simpl. lia.
Defined.

Lemma faces_from_edges_same_apex_witness :
  faces_from_edges [[0; 1]; [1; 2]; [2; 0]]%Z =
  faces_from_edges [[0; 1]; [2; 0]; [1; 2]]%Z.
Proof.
  apply faces_from_edges_same_apex.
  - apply pset_value_perm. apply perm_skip, perm_swap.
  - reflexivity.
Defined.

Lemma betti_empty_complex_witness :
  betti py_set py_set_vertices exact_rank 1 [] None = 0%Z ∧
  betti py_set py_set_vertices exact_rank 1 [] (Some []) = 0%Z ∧
  ∀ relative km1chain,
    boundary py_set [] 1 relative km1chain = (zeros 0 0, None).
Proof.
  apply (betti_empty_complex py_set py_set_vertices py_set_elem exact_rank 1).
  lia.
Defined.

Lemma string_from_homology_winner_witness :
  string_from_homology py_set py_set_vertices exact_rank blue_game =
  summary_table py_set py_set_vertices exact_rank blue_game +:+ "winner: blue!".
Proof.
  apply (string_from_homology_winner py_set py_set_vertices exact_rank blue_game).
  by vm_compute.
Defined.

Lemma string_from_homology_blue_first_witness :
  string_from_homology py_set py_set_vertices exact_rank path_game =
  summary_table py_set py_set_vertices exact_rank path_game +:+ "winner: blue!".
Proof.
  apply (string_from_homology_blue_first py_set py_set_vertices exact_rank path_game);
    by vm_compute.
Defined.

(** C3, as stated, fails: for the hollow triangle and [k = 1], [D_1] is 3
    by 3 and [D_2], the 2-chain being empty, is the 0-by-0 array of the
    early return; their product is not defined. *)
Lemma boundary_product_undefined :
  shape (boundary py_set hollow_triangle 1 None None).1 = (3, 3) ∧
  shape (boundary py_set hollow_triangle 2 None None).1 = (0, 0) ∧
  dot (boundary py_set hollow_triangle 1 None None).1
      (boundary py_set hollow_triangle 2 None None).1 = None.
Proof. by vm_compute. Qed.

Lemma boundary_composition_witness :
  let dk := (boundary py_set filled_triangle 1 (Some edge_subcomplex) None).1 in
  let dkp1 := (boundary py_set filled_triangle 2 (Some edge_subcomplex) None).1 in
  dot dk dkp1 =
    (if decide (ksimplices py_set filled_triangle 1 (Some edge_subcomplex) ≠ []
                ∧ ksimplices py_set filled_triangle 2 (Some edge_subcomplex) = [])
     then None
     else Some (zeros (shape dk).1
                  (length (ksimplices py_set filled_triangle 2
                             (Some edge_subcomplex))))) ∧
  boundary py_set filled_triangle 2 (Some edge_subcomplex)
    (boundary py_set filled_triangle 1 (Some edge_subcomplex) None).2 =
  boundary py_set filled_triangle 2 (Some edge_subcomplex) None.
Proof.
  apply (boundary_composition py_set py_set_NoDup py_set_elem
           filled_triangle 1 (Some edge_subcomplex)).
  - lia.
  - by apply (bool_decide_unpack _).
  - intros t i Ht Hi Hlen. unfold edge_subcomplex in *.
    rewrite !elem_of_cons, elem_of_nil in Ht.
    destruct Ht as [->|[->|[->|[]]]]; simpl in Hi, Hlen; try lia.
    destruct i as [|[|i]]; simpl; [| |lia].
    + apply list_elem_of_further, list_elem_of_here.
    + apply list_elem_of_here.
Defined.

Lemma py_set_vertices_elem (l : list Z) (x : Z) : x ∈ py_set_vertices l ↔ x ∈ l.
Proof. apply elem_of_remove_dups. Qed.

Lemma py_set_vertices_NoDup (l : list Z) : NoDup (py_set_vertices l).
Proof. apply NoDup_remove_dups. Qed.

(** The one triangle of the cell 0 - 1 - 2. *)
Lemma triangle_face : pset_value [[1; 2; 0]%Z] = face_from_cycle [0; 1; 2]%Z.
Proof.
  apply set_eq. intros s.
  rewrite elem_of_pset_value, elem_of_face_from_cycle. split.
  - intros (x & ->%list_elem_of_singleton & ->). exists 1.
    split; [lia|]. split; [simpl; lia|]. by vm_compute.
  - intros (i & Hi1 & Hi & ->). simpl in Hi. assert (i = 1) as -> by lia.
    exists [1; 2; 0]%Z. split; [apply list_elem_of_here|]. by vm_compute.
Qed.

Lemma closure_depends_on_set_value_witness :
  closure [[0]; [1; 2]]%Z = closure [[1; 2]; [0]]%Z.
Proof.
  apply (closure_depends_on_set_value [[0]; [1; 2]]%Z [[1; 2]; [0]]%Z).
  apply pset_value_perm, perm_swap.
Defined.

Lemma cell_region_contains_boundary_witness :
  edges_from_cycle [0; 1; 2]%Z ⊆ closure [[1; 2; 0]%Z].
Proof.
  apply (cell_region_contains_boundary [0; 1; 2]%Z [[1; 2; 0]%Z]).
  - simpl. lia.
  - apply triangle_face.
Defined.

Lemma verts_from_edges_of_cycles_witness :
  {[2%Z]} ∈ verts_from_edges [[0; 1]; [1; 2]; [2; 0]]%Z ↔
  ∃ c v, c ∈ [[0; 1; 2]%Z] ∧ v ∈ c ∧ ({[2%Z]} : gset Z) = {[v]}.
Proof.
  apply (verts_from_edges_of_cycles [[0; 1; 2]%Z]).
  apply set_eq. intros e. unfold edges_from_cycles. simpl.
  rewrite elem_of_union, elem_of_pset_value, elem_of_edges_from_cycle.
  split.
  - intros (x & Hx & ->). left.
    rewrite !elem_of_cons, elem_of_nil in Hx.
    destruct Hx as [->|[->|[->|[]]]];
      [exists 0|exists 1|exists 2]; (split; [simpl; lia|by vm_compute]).
  - intros [(i & Hi & ->)|[]%elem_of_empty]. simpl in Hi.
    destruct i as [|[|[|i]]]; [| | |lia].
    + exists [0; 1]%Z. split; [apply list_elem_of_here|by vm_compute].
    + exists [1; 2]%Z. split; [|by vm_compute].
      apply list_elem_of_further, list_elem_of_here.
    + exists [2; 0]%Z. split; [|by vm_compute].
      do 2 apply list_elem_of_further. apply list_elem_of_here.
Defined.

Lemma ksimplices_spec_witness :
  NoDup (ksimplices py_set filled_triangle 1 None) ∧
  ∀ x, x ∈ ksimplices py_set filled_triangle 1 None ↔
       (∃ t, t ∈ filled_triangle ∧ x `sublist_of` t ∧
             length x = Z.to_nat (1 + 1)) ∧ True.
Proof.
  apply (ksimplices_spec py_set py_set_NoDup py_set_elem filled_triangle 1 None).
  lia.
Defined.

Lemma boundary_entries_witness :
  let B := (boundary py_set filled_triangle 1 None None).1 in
  (boundary py_set filled_triangle 1 None None).2
  = Some (ksimplices py_set filled_triangle 1 None) ∧
  well_formed B ∧
  shape B = (length (ksimplices py_set filled_triangle (1 - 1) None),
             length (ksimplices py_set filled_triangle 1 None)) ∧
  ∀ r c rho splx,
    ksimplices py_set filled_triangle (1 - 1) None !! r = Some rho →
    ksimplices py_set filled_triangle 1 None !! c = Some splx →
    (∀ i, i < length splx → delete i splx = rho → item B r c = sign i) ∧
    ((∀ i, i < length splx → delete i splx ≠ rho) → item B r c = 0%Z).
Proof.
  apply (boundary_entries py_set py_set_NoDup py_set_elem filled_triangle 1 None).
  - lia.
  - by apply (bool_decide_unpack _).
  - by vm_compute.
  - by vm_compute.
Defined.

Lemma integerVertices_renumbering_witness :
  let verts := mjoin ([[5; 7]; [7; 9]]%Z ++ default [] (Some [[9]%Z])) in
  let n := Z.of_nat (base.size (list_to_set verts : gset Z)) in
  ∃ ren : Z → Z,
    integerVertices py_set_vertices [[5; 7]; [7; 9]]%Z (Some [[9]%Z])
    = (map (map ren) [[5; 7]; [7; 9]]%Z,
       map (map ren) (default [] (Some [[9]%Z]))) ∧
    (∀ v, v ∈ verts → 0 ≤ ren v < n)%Z ∧
    (∀ v w, v ∈ verts → w ∈ verts → ren v = ren w → v = w) ∧
    (∀ m, (0 ≤ m < n)%Z → ∃ v, v ∈ verts ∧ ren v = m).
Proof.
  apply (integerVertices_renumbering py_set_vertices py_set_vertices_NoDup
           py_set_vertices_elem [[5; 7]; [7; 9]]%Z (Some [[9]%Z])).
Defined.

Lemma ksimplices_canonical_witness :
  let X := [[7; 5]; [5; 7; 9]]%Z in
  let X' := map sorted (integerVertices py_set_vertices X None).1 in
  let Y' := map sorted (integerVertices py_set_vertices X None).2 in
  ksimplices py_set X' 1 (Some Y') !!! 0 = [0; 1]%Z.
Proof.
  intros X X' Y'.
  apply (ksimplices_canonical py_set py_set_vertices py_set_NoDup py_set_elem
           py_set_vertices_NoDup py_set_vertices_elem X None 1
           (ksimplices py_set X' 1 (Some Y') !!! 0) [0; 1]%Z).
  - lia.
  - by apply (bool_decide_unpack _).
  - apply (bool_decide_unpack _). by vm_compute.
  - apply (bool_decide_unpack _). by vm_compute.
  - by vm_compute.
Defined.

Lemma betti_ignores_empty_simplex_witness :
  (∀ Y, betti py_set py_set_vertices exact_rank 1 ([] ++ [] :: hollow_triangle) Y
        = betti py_set py_set_vertices exact_rank 1 ([] ++ hollow_triangle) Y) ∧
  (∀ X Y1 Y2,
     betti py_set py_set_vertices exact_rank 1 X (Some (Y1 ++ [] :: Y2))
     = betti py_set py_set_vertices exact_rank 1 X (Some (Y1 ++ Y2))).
Proof.
  apply (betti_ignores_empty_simplex py_set py_set_vertices py_set_elem
           exact_rank 1 [] hollow_triangle).
  lia.
Defined.

Lemma sh_closure_spec_witness :
  NoDup (sh_closure py_set [[0; 1]; [1; 2]]%Z) ∧
  ([] ∉ sh_closure py_set [[0; 1]; [1; 2]]%Z) ∧
  ∀ x, x ∈ sh_closure py_set [[0; 1]; [1; 2]]%Z ↔
       x ≠ [] ∧ ∃ t, t ∈ [[0; 1]; [1; 2]]%Z ∧ x `sublist_of` t.
Proof.
  apply (sh_closure_spec py_set py_set_NoDup py_set_elem [[0; 1]; [1; 2]]%Z).
Defined.

Lemma closure_siblings_witness :
  ∅ ∈ closure [[0; 1]; [1; 2]]%Z ↔
  ∅ ∈ pset_value (sh_closure py_set [[0; 1]; [1; 2]]%Z) ∨
  ((∅ : gset Z) = ∅ ∧ [[0; 1]; [1; 2]]%Z ≠ []).
Proof.
  apply (closure_siblings py_set py_set_elem [[0; 1]; [1; 2]]%Z ∅).
Defined.

Lemma sstar_spec_witness :
  (∃ added, sstar py_set [[0; 1; 2]; [2; 3]]%Z [[2]%Z] = [[2]%Z] ++ added) ∧
  (∀ x, x ∈ sstar py_set [[0; 1; 2]; [2; 3]]%Z [[2]%Z] ↔
        x ∈ [[2]%Z] ∨
        (x ≠ [] ∧ (∃ t, t ∈ [[0; 1; 2]; [2; 3]]%Z ∧ x `sublist_of` t) ∧
         ∃ s, s ∈ [[2]%Z] ∧ pset s ⊆ pset x)) ∧
  (NoDup [[2]%Z] → NoDup (sstar py_set [[0; 1; 2]; [2; 3]]%Z [[2]%Z])).
Proof.
  apply (sstar_spec py_set py_set_elem [[0; 1; 2]; [2; 3]]%Z [[2]%Z]).
Defined.

Lemma player_alternates_witness :
  ∃ p q, player [BLUE; RED] 4 = Some p ∧ player [BLUE; RED] 5 = Some q ∧
         player [BLUE; RED] 6 = Some p ∧
         p ≠ q ∧ p ≠ NEUTRAL ∧ q ≠ NEUTRAL.
Proof.
  apply (player_alternates [BLUE; RED] 4). apply perm_swap.
Defined.

Lemma add_cycle_to_player_complex_spec_witness :
  let self' :=
    mk_Game (board blue_game) (blue blue_game)
            (red blue_game ++ powerset [1; 2; 0]%Z) in
  blue self' = blue blue_game ∧
  (is_complex (red blue_game) → is_complex (red self')).
Proof.
  intros self'.
  assert (add_cycle_to_player_complex blue_game NEUTRAL [0; 1; 2]%Z self')
    as Hstep; [|
    destruct (add_cycle_to_player_complex_spec blue_game self' NEUTRAL
                [0; 1; 2]%Z Hstep) as (_ & _ & Hred & _ & Hcx);
    split; [by apply Hred|done]].
  apply (add_cycle_red blue_game NEUTRAL [0; 1; 2]%Z
           [[1; 2; 0]%Z] (red blue_game ++ powerset [1; 2; 0]%Z)).
  - done.
  - apply triangle_face.
  - unfold pset_value, closure. rewrite map_app, list_to_set_app_L.
    change (mjoin (map powerset [[1; 2; 0]%Z]))
      with (powerset [1; 2; 0]%Z ++ []).
    by rewrite app_nil_r.
Defined.

Lemma vertexHoplength_bounded_witness :
  is_Some (vertexHoplength py_set_vertices 2 [[0; 1]; [1; 2]; [3]]%Z
                           [0%Z] (Some 3%Z)).
Proof.
  apply (vertexHoplength_bounded py_set_vertices 2 [[0; 1]; [1; 2]; [3]]%Z
           [0%Z] 3).
  lia.
Defined.

Lemma vertexHoplength_unreachable_witness :
  vertexHoplength py_set_vertices 1000 [[0; 1]; [2]]%Z [0; 1]%Z None = None.
Proof.
  generalize 1000.
  apply (vertexHoplength_unreachable py_set_vertices py_set_vertices_elem
           [[0; 1]; [2]]%Z [0; 1]%Z).
  - exists [2%Z], 2%Z. split; [|split].
    + apply list_elem_of_further, list_elem_of_here.
    + apply list_elem_of_here.
    + by apply (bool_decide_unpack _).
  - intros s Hs (v & Hv & Hvs) w Hw.
    rewrite !elem_of_cons, elem_of_nil in Hs. destruct Hs as [->|[->|[]]].
    + done.
    + apply list_elem_of_singleton in Hvs as ->.
      by apply (bool_decide_pack _) in Hv.
Defined.

Lemma toplexify_spec_witness :
  [0; 1]%Z ∈ toplexify [[0]; [0; 1]; [2]]%Z ↔
  [0; 1]%Z ∈ [[0]; [0; 1]; [2]]%Z ∧
  ∀ y, y ∈ [[0]; [0; 1]; [2]]%Z → pset [0; 1]%Z ⊆ pset y → y = [0; 1]%Z.
Proof.
  apply (toplexify_spec [[0]; [0; 1]; [2]]%Z [0; 1]%Z);
    by apply (bool_decide_unpack _).
Defined.

Lemma toplexify_drops_repeated_witness :
  ([0; 1]%Z ∉ toplexify [[0; 1]; [2]; [1; 0]]%Z) ∧
  ([1; 0]%Z ∉ toplexify [[0; 1]; [2]; [1; 0]]%Z).
Proof.
  apply (toplexify_drops_repeated [[0; 1]; [2]; [1; 0]]%Z 0 2); done.
Defined.

Lemma subsets_listed (X Y : list (list Z)) :
  Forall (λ t, Forall (λ x, x = [] ∨ pset x ∈ map pset Y) (powerset t)) X →
  ∀ t s, t ∈ X → s ⊆ pset t → s ≠ ∅ → s ∈ pset_value Y.
Proof.
  intros H t s Ht Hs Hne.
  apply (proj1 (Forall_forall _ _) H) in Ht.
  assert (filter (λ v, v ∈ s) t ∈ powerset t) as Hx
    by apply elem_of_powerset, sublist_filter.
  apply (proj1 (Forall_forall _ _) Ht) in Hx. rewrite pset_filter in Hx by done.
  destruct Hx as [Hnil|Hin].
  - destruct Hne. rewrite <- (pset_filter s t) by done. by rewrite Hnil.
  - unfold pset_value. by apply elem_of_list_to_set.
Qed.

Lemma betti_relative_to_superset_witness :
  betti py_set py_set_vertices exact_rank 1 path_complex (Some path_complex)
  = 0%Z.
Proof.
  apply (betti_relative_to_superset py_set py_set_vertices py_set_elem
           py_set_vertices_NoDup py_set_vertices_elem exact_rank
           1 path_complex path_complex).
  - lia.
  - by apply (bool_decide_unpack _).
  - by apply (bool_decide_unpack _).
  - apply subsets_listed. by apply (bool_decide_unpack _).
Defined.
